(** * SPU API: key compiler, command executor, structure facade, simulator

    A shallow embedding of
      - [libspu/key.hpp]            (class [Key]: [mask], [find_data_by_name],
                                     [compileKey]),
      - [spudrv/cmdexec.c]          ([execute_cmd] and its helpers),
      - [libspu/base_structure.hpp] (class [BaseStructure]),
      - [simulator/Simulator.cpp]   (class [Simulator]),
    together with the properties of the design document that these functions
    decide.

    Machine integers are [Z] with the wrap-around written out; C arrays are
    lists; the simulator's [std::map] is a [gmap]. *)

From Stdlib Require Import ZArith Lia Bool List.
From stdpp Require Import base gmap list fin_maps sorting.

Local Open Scope Z_scope.

(** ** Machine words *)

(** Truncation to an unsigned 32-bit word ([u32]). *)
Definition wrap32 (x : Z) : Z := x mod 2 ^ 32.

(** Truncation to an unsigned 8-bit word ([u8]). *)
Definition wrap8 (x : Z) : Z := x mod 2 ^ 8.

(** Modelled from the spec: the status codes of [spu.h], which is not part of
    the sources at hand.  The design document has exactly two of them:
    "Status is one of {Ok, Error}". *)
Inductive status_t := OK | ERR.

#[global] Instance status_t_eq_dec : EqDecision status_t.
Proof. solve_decision. Defined.

(** ** [libspu/key.hpp] *)

Module KeyCompiler.
Section Key.

(** [template<typename FieldNameType>]: the type that names a field; the
    code compares names with [==]. *)
Context {FieldNameType : Type} `{EqDecision FieldNameType}.

(** [SPU_WEIGHT] comes from [spu.h]: the number of 32-bit words of a key. *)
Variable SPU_WEIGHT : Z.

(** C and C++ leave a shift by 32 or more positions of a 32-bit operand
    without a defined result.  The embedding gives such a shift whatever
    value the machine produces: [shl_wide x n] for [x << n] and
    [shr_wide x n] for [x >> n] when [32 <= n]; everything below is proved
    for every choice of the two. *)
Variables shl_wide shr_wide : Z -> Z -> Z.

(** [x << n] on 32-bit operands, the result truncated to 32 bits. *)
Definition shl32 (x n : Z) : Z :=
  wrap32 (if n <? 32 then Z.shiftl x n else shl_wide x n).

(** [x >> n] on an unsigned 32-bit operand. *)
Definition shr32 (x n : Z) : Z :=
  if n <? 32 then Z.shiftr x n else wrap32 (shr_wide x n).

(** [struct FieldLengthStruct { FieldNameType name; u32 length; }] *)
Record FieldLengthStruct := mkFieldLength {
  fl_name : FieldNameType;
  fl_length : Z
}.

(** [struct FieldDataStruct { FieldNameType name; u32 data; }] *)
Record FieldDataStruct := mkFieldData {
  fd_name : FieldNameType;
  fd_data : Z
}.

Definition FiledsLengthVector := list FieldLengthStruct.
Definition FieldsDataVector := list FieldDataStruct.

(** The body of the loop of [mask]:
    [for (u32 i = 0; i < len; i++) mask |= 1 << i;]
    with [n] iterations left, the counter at [i] and the accumulator [m]. *)
Fixpoint mask_loop (n : nat) (i m : Z) : Z :=
  match n with
  | O => m
  | S n' => mask_loop n' (i + 1) (Z.lor m (shl32 1 i))
  end.

(** [u32 Key::mask(u32 len)] *)
Definition mask (len : Z) : Z := mask_loop (Z.to_nat len) 0 0.

(** [u32 Key::find_data_by_name(FieldsDataVector, FieldNameType)]: the data
    of the first entry with that name, [0x0] when there is none. *)
Fixpoint find_data_by_name (fields_data_vector : FieldsDataVector)
         (name : FieldNameType) : Z :=
  match fields_data_vector with
  | [] => 0
  | field_data_struct :: rest =>
      if decide (fd_name field_data_struct = name)
      then fd_data field_data_struct
      else find_data_by_name rest name
  end.

(** [key[weight] |= x].  The index is a [u8]; a write past the end of the
    list leaves it as it is (the code makes none when the array has
    [SPU_WEIGHT >= 1] words, see [compile_loop_weight_bound]). *)
Definition or_at (key : list Z) (weight x : Z) : list Z :=
  alter (fun w => Z.lor w x) (Z.to_nat weight) key.

(** The local state of [compileKey]: the output array, [shift], [weight]. *)
Record compile_state := mkState {
  st_key : list Z;
  st_shift : Z;
  st_weight : Z
}.

(** One iteration of the loop of [compileKey] over [fields_len_vec]. *)
Definition compile_step (fields_data_vector : FieldsDataVector)
           (st : compile_state) (field_length_struct : FieldLengthStruct)
  : compile_state :=
  let key := st_key st in
  let shift := st_shift st in
  let weight := st_weight st in
  let field_data :=
    find_data_by_name fields_data_vector (fl_name field_length_struct) in
  let field_mask := mask (fl_length field_length_struct) in
  let field := Z.land field_data field_mask in
  let key := or_at key weight (shl32 field shift) in
  let prev_shift := shift in
  let shift := wrap32 (shift + fl_length field_length_struct) in
  if (32 <=? shift) && (weight <? SPU_WEIGHT - 1) then
    let shift := shift - 32 in
    let weight := wrap8 (weight + 1) in
    let field :=
      shr32 field (wrap32 (fl_length field_length_struct - prev_shift)) in
    let portion := mask shift in
    mkState (or_at key weight (Z.land field portion)) shift weight
  else
    mkState key shift weight.

(** The loop of [compileKey], from an arbitrary loop state. *)
Definition compile_loop (fields_len_vec : FiledsLengthVector)
           (fields_data_vector : FieldsDataVector) (st : compile_state)
  : compile_state :=
  fold_left (compile_step fields_data_vector) fields_len_vec st.

(** [bool Key::compileKey(u32 key[SPU_WEIGHT], FieldsDataVector)]: the
    returned flag and the array [key] as the call leaves it. *)
Definition compileKey (fields_len_vec : FiledsLengthVector) (key : list Z)
           (fields_data_vector : FieldsDataVector) : bool * list Z :=
  (true, st_key (compile_loop fields_len_vec fields_data_vector
                              (mkState key 0 0))).

(** The total declared width of a schema, in bits. *)
Definition total_width (fields_len_vec : FiledsLengthVector) : Z :=
  fold_right (fun f acc => fl_length f + acc) 0 fields_len_vec.

(** Bit [p] of a multi-word key: bit [p mod 32] of word [p / 32]. *)
Definition key_bit (key : list Z) (p : Z) : bool :=
  Z.testbit (nth (Z.to_nat (p / 32)) key 0) (p mod 32).

(** Every declared length is a [u32]. *)
Definition wf_schema (fields_len_vec : FiledsLengthVector) : Prop :=
  Forall (fun f => 0 <= fl_length f < 2 ^ 32) fields_len_vec.

(** *** Bits of the building blocks *)

Lemma wrap32_bit_true (x q : Z) :
  Z.testbit (wrap32 x) q = true -> 0 <= q < 32 /\ Z.testbit x q = true.
Proof.
  unfold wrap32. intros Hb.
  destruct (Z.ltb_spec q 0) as [Hneg|Hpos].
  { rewrite Z.testbit_neg_r in Hb by lia. discriminate. }
  destruct (Z.ltb_spec q 32) as [Hlt|Hge].
  - rewrite Z.mod_pow2_bits_low in Hb by lia. split; [lia | exact Hb].
  - rewrite Z.mod_pow2_bits_high in Hb by lia. discriminate.
Qed.

Lemma shl32_bit_true (x n q : Z) :
  Z.testbit (shl32 x n) q = true ->
  0 <= q < 32 /\ (n < 32 -> Z.testbit x (q - n) = true).
Proof.
  unfold shl32. intros Hb. apply wrap32_bit_true in Hb as [Hq Hb].
  split; [exact Hq |]. intros Hn.
  destruct (Z.ltb_spec n 32) as [_|Hge]; [| lia].
  rewrite Z.shiftl_spec in Hb by lia. exact Hb.
Qed.

Lemma one_bit_true (q : Z) : Z.testbit 1 q = true -> q = 0.
Proof.
  intros Hb. destruct (Z.eq_dec q 0) as [->|Hne]; [reflexivity |].
  destruct (Z.ltb_spec q 0).
  - rewrite Z.testbit_neg_r in Hb by lia. discriminate.
  - change 1 with (2 ^ 0) in Hb.
    rewrite Z.pow2_bits_false in Hb by lia. discriminate.
Qed.

Lemma mask_loop_bit_true (n : nat) :
  forall i m q,
    0 <= i ->
    (forall r, Z.testbit m r = true -> r < 32 /\ r < i + Z.of_nat n) ->
    Z.testbit (mask_loop n i m) q = true ->
    q < 32 /\ q < i + Z.of_nat n.
Proof.
  induction n as [|n IH]; intros i m q Hi Hm Hb; simpl in Hb.
  - apply Hm, Hb.
  - assert (Hstep : q < 32 /\ q < i + 1 + Z.of_nat n).
    { apply (IH (i + 1) (Z.lor m (shl32 1 i))); [lia | | exact Hb].
      intros r Hr. rewrite Z.lor_spec in Hr.
      apply orb_true_iff in Hr as [Hr|Hr].
      - apply Hm in Hr. lia.
      - apply shl32_bit_true in Hr as [Hr32 Hr1].
        destruct (Z.ltb_spec i 32) as [Hlt|Hge].
        + specialize (Hr1 Hlt). apply one_bit_true in Hr1. lia.
        + lia. }
    lia.
Qed.

(** [mask len] has no bit at or above [len], and none above bit 31. *)
Lemma mask_bit_true (len q : Z) :
  Z.testbit (mask len) q = true -> q < 32 /\ q < len.
Proof.
  unfold mask. intros Hb.
  destruct (Z.ltb_spec len 0) as [Hneg|Hpos].
  { replace (Z.to_nat len) with O in Hb by lia. simpl in Hb.
    rewrite Z.bits_0 in Hb. discriminate. }
  apply mask_loop_bit_true in Hb; [lia | lia |].
  intros r Hr. rewrite Z.bits_0 in Hr. discriminate.
Qed.

Lemma mask_loop_nonneg (n : nat) :
  forall i m, 0 <= m -> 0 <= mask_loop n i m.
Proof.
  induction n as [|n IH]; intros i m Hm; simpl; [exact Hm |].
  apply IH. apply Z.lor_nonneg. split; [exact Hm |].
  unfold shl32, wrap32. apply Z.mod_pos_bound. lia.
Qed.

Lemma key_bit_or_at (key : list Z) (w x p : Z) :
  0 <= w -> 0 <= p ->
  key_bit (or_at key w x) p = true ->
  key_bit key p = true \/ (p / 32 = w /\ Z.testbit x (p mod 32) = true).
Proof.
  unfold key_bit, or_at. intros Hw Hp Hb.
  rewrite !nth_lookup in *.
  destruct (decide (Z.to_nat w = Z.to_nat (p / 32))) as [Heq|Hne].
  - rewrite <- Heq in *. rewrite list_lookup_alter_eq in Hb.
    destruct (key !! Z.to_nat w) as [old|] eqn:Hold; simpl in *.
    + rewrite Z.lor_spec in Hb. apply orb_true_iff in Hb as [Hb|Hb].
      * left. exact Hb.
      * right. split; [| exact Hb].
        assert (0 <= p / 32) by (apply Z.div_pos; lia). lia.
    + left. exact Hb.
  - rewrite list_lookup_alter_ne in Hb by exact Hne. left. exact Hb.
Qed.


(** *** The loop invariant of [compileKey]

    [T] is the number of bits declared by the fields consumed so far.  The
    write position never runs ahead of [T], and the array holds no bit at
    or above [T]. *)
Definition packed_below (st : compile_state) (T : Z) : Prop :=
  0 <= st_shift st /\ 0 <= st_weight st /\
  32 * st_weight st + st_shift st <= T /\
  forall p, T <= p -> key_bit (st_key st) p = false.

Lemma wrap32_le (x : Z) : 0 <= x -> 0 <= wrap32 x <= x.
Proof.
  intros Hx. unfold wrap32. split.
  - apply Z.mod_pos_bound. lia.
  - apply Z.mod_le; lia.
Qed.

Lemma wrap8_le (x : Z) : 0 <= x -> 0 <= wrap8 x <= x.
Proof.
  intros Hx. unfold wrap8. split.
  - apply Z.mod_pos_bound. lia.
  - apply Z.mod_le; lia.
Qed.

Lemma compile_step_packed_below vals st f T :
  0 <= fl_length f ->
  packed_below st T ->
  packed_below (compile_step vals st f) (T + fl_length f).
Proof.
  intros Hlen (Hs & Hw & Hpos & Hbits).
  destruct st as [key shift weight]. simpl in *.
  pose proof (wrap32_le (shift + fl_length f) ltac:(lia)) as [Hs0 Hs1].
  pose proof (wrap8_le (weight + 1) ltac:(lia)) as [Hw0 Hw1].
  (* the first write, [key[weight] |= field << shift] *)
  assert (Hfirst : forall p, T + fl_length f <= p ->
            key_bit (or_at key weight
              (shl32 (Z.land (find_data_by_name vals (fl_name f))
                             (mask (fl_length f))) shift)) p = false).
  { intros p Hp. apply not_true_is_false. intros Hb.
    apply key_bit_or_at in Hb as [Hb|[Hword Hb]]; [| | lia | lia].
    - rewrite Hbits in Hb by lia. discriminate.
    - apply shl32_bit_true in Hb as [Hq Hb].
      pose proof (Z.div_mod p 32 ltac:(lia)) as Hdm.
      destruct (Z.ltb_spec shift 32) as [Hlt|Hge]; [| lia].
      specialize (Hb Hlt). rewrite Z.land_spec in Hb.
      apply andb_true_iff in Hb as [_ Hb].
      apply mask_bit_true in Hb. lia. }
  unfold compile_step, packed_below. simpl.
  destruct ((32 <=? wrap32 (shift + fl_length f)) &&
            (weight <? SPU_WEIGHT - 1)) eqn:Hadv; simpl.
  - apply andb_true_iff in Hadv as [Hadv _]. apply Z.leb_le in Hadv.
    repeat split; try lia.
    intros p Hp. apply not_true_is_false. intros Hb.
    apply key_bit_or_at in Hb as [Hb|[Hword Hb]]; [| | lia | lia].
    + rewrite Hfirst in Hb by lia. discriminate.
    + rewrite Z.land_spec in Hb. apply andb_true_iff in Hb as [_ Hb].
      apply mask_bit_true in Hb.
      pose proof (Z.div_mod p 32 ltac:(lia)) as Hdm. lia.
  - repeat split; try lia. exact Hfirst.
Qed.

Lemma compile_loop_packed_below vals schema :
  forall st T,
    wf_schema schema ->
    packed_below st T ->
    packed_below (compile_loop schema vals st) (T + total_width schema).
Proof.
  induction schema as [|f schema IH]; intros st T Hwf Hinv; simpl.
  - replace (T + 0) with T by lia. exact Hinv.
  - inversion Hwf as [|? ? Hf Hrest]; subst.
    replace (T + (fl_length f + total_width schema))
      with ((T + fl_length f) + total_width schema) by lia.
    apply IH; [exact Hrest |].
    apply compile_step_packed_below; [lia | exact Hinv].
Qed.

Lemma key_bit_zeros (n : nat) (p : Z) : key_bit (repeat 0 n) p = false.
Proof.
  unfold key_bit. rewrite nth_repeat. apply Z.bits_0.
Qed.

(** *** The word index stays inside the array, whose length is kept *)

Lemma compile_step_weight_bound vals st f :
  0 <= st_weight st < SPU_WEIGHT ->
  0 <= st_weight (compile_step vals st f) < SPU_WEIGHT.
Proof.
  intros Hw. unfold compile_step.
  destruct ((32 <=? wrap32 (st_shift st + fl_length f)) &&
            (st_weight st <? SPU_WEIGHT - 1)) eqn:Hadv; simpl; [| exact Hw].
  apply andb_true_iff in Hadv as [_ Hlt]. apply Z.ltb_lt in Hlt.
  pose proof (wrap8_le (st_weight st + 1) ltac:(lia)). lia.
Qed.

Lemma compile_loop_weight_bound vals schema :
  forall st,
    0 <= st_weight st < SPU_WEIGHT ->
    0 <= st_weight (compile_loop schema vals st) < SPU_WEIGHT.
Proof.
  induction schema as [|f schema IH]; intros st Hw; simpl; [exact Hw |].
  apply IH, compile_step_weight_bound, Hw.
Qed.

Lemma or_at_length key w x : length (or_at key w x) = length key.
Proof. unfold or_at. apply length_alter. Qed.

Lemma compile_loop_length vals schema :
  forall st, length (st_key (compile_loop schema vals st)) = length (st_key st).
Proof.
  induction schema as [|f schema IH]; intros st; simpl; [reflexivity |].
  rewrite IH. unfold compile_step.
  destruct (_ && _); simpl; rewrite ?or_at_length; reflexivity.
Qed.

(** *** The array is only ever ORed into *)

Lemma or_at_zip_with (a b : list Z) (w x : Z) :
  or_at (zip_with Z.lor a b) w x = zip_with Z.lor a (or_at b w x).
Proof.
  unfold or_at. generalize (Z.to_nat w) as i. revert b.
  induction a as [|u a IH]; intros [|v b] [|i]; simpl; try reflexivity.
  - rewrite Z.lor_assoc. reflexivity.
  - f_equal. apply IH.
Qed.

Lemma compile_step_or vals a b shift weight f :
  compile_step vals (mkState (zip_with Z.lor a b) shift weight) f =
  let st := compile_step vals (mkState b shift weight) f in
  mkState (zip_with Z.lor a (st_key st)) (st_shift st) (st_weight st).
Proof.
  unfold compile_step. simpl.
  destruct ((32 <=? wrap32 (shift + fl_length f)) &&
            (weight <? SPU_WEIGHT - 1)); simpl;
    rewrite !or_at_zip_with; reflexivity.
Qed.

Lemma compile_loop_or vals schema :
  forall a b shift weight,
    compile_loop schema vals (mkState (zip_with Z.lor a b) shift weight) =
    let st := compile_loop schema vals (mkState b shift weight) in
    mkState (zip_with Z.lor a (st_key st)) (st_shift st) (st_weight st).
Proof.
  induction schema as [|f schema IH]; intros a b shift weight; simpl.
  - reflexivity.
  - rewrite compile_step_or. simpl.
    destruct (compile_step vals (mkState b shift weight) f)
      as [key' shift' weight'] eqn:Hstep. simpl.
    rewrite IH. reflexivity.
Qed.

Lemma zip_with_lor_zeros (key : list Z) :
  zip_with Z.lor key (repeat 0 (length key)) = key.
Proof.
  induction key as [|w key IH]; simpl; [reflexivity |].
  rewrite Z.lor_0_r, IH. reflexivity.
Qed.


(** *** Properties of [compileKey] *)

(** C3 (as amended).  [compileKey] never clears the output array, it ORs
    into it: every output word is the word found on entry ORed with the
    word that the same call produces on a zeroed array.  On an array that is
    zero on entry the key words therefore depend on the schema and the
    values alone, and no bit at or above the total declared schema width
    is set. *)
Theorem compileKey_ors_into_key schema vals key0 :
  wf_schema schema ->
  snd (compileKey schema key0 vals) =
    zip_with Z.lor key0
      (snd (compileKey schema (repeat 0 (length key0)) vals))
  /\ forall p,
       total_width schema <= p ->
       key_bit (snd (compileKey schema (repeat 0 (length key0)) vals)) p
         = false.
Proof.
  intros Hwf. split.
  - unfold compileKey. simpl.
    rewrite <- (zip_with_lor_zeros key0) at 1.
    rewrite compile_loop_or. reflexivity.
  - intros p Hp. unfold compileKey. simpl.
    pose proof (compile_loop_packed_below vals schema
                  (mkState (repeat 0 (length key0)) 0 0) 0 Hwf) as Hinv.
    destruct Hinv as (_ & _ & _ & Hbits).
    + unfold packed_below. simpl. repeat split; try lia.
      intros q _. apply key_bit_zeros.
    + apply Hbits. lia.
Qed.


(** *** [mask] and [find_data_by_name] in closed form *)

Lemma ones_lor_bit (i : Z) :
  0 <= i < 32 -> Z.lor (Z.ones i) (shl32 1 i) = Z.ones (i + 1).
Proof.
  intros Hi. unfold shl32.
  destruct (Z.ltb_spec i 32) as [_|Hge]; [| lia].
  rewrite Z.shiftl_1_l. unfold wrap32.
  rewrite Z.mod_small.
  2:{ split; [apply Z.pow_nonneg; lia | apply Z.pow_lt_mono_r; lia]. }
  apply Z.bits_inj'. intros q Hq.
  rewrite Z.lor_spec, Z.pow2_bits_eqb by lia.
  rewrite !Z.testbit_ones_nonneg by lia.
  destruct (Z.ltb_spec q i), (Z.eqb_spec i q), (Z.ltb_spec q (i + 1));
    simpl; try reflexivity; lia.
Qed.

Lemma mask_loop_ones (n : nat) :
  forall i,
    0 <= i -> i + Z.of_nat n <= 32 ->
    mask_loop n i (Z.ones i) = Z.ones (i + Z.of_nat n).
Proof.
  induction n as [|n IH]; intros i Hi Hle; simpl mask_loop.
  - f_equal. lia.
  - rewrite ones_lor_bit by lia. rewrite IH by lia. f_equal. lia.
Qed.

Lemma mask_ones (len : Z) :
  0 <= len <= 32 -> mask len = Z.ones len.
Proof.
  intros Hlen. unfold mask. change 0 with (Z.ones 0) at 2.
  rewrite mask_loop_ones by lia. f_equal. lia.
Qed.

(** X1.  For a length of at most 32, [mask len] is the word with exactly
    the [len] low bits set: its value is [2^len - 1], and bit [q] is set
    exactly when [0 <= q < len]. *)
Theorem mask_is_low_bits (len : Z) :
  0 <= len <= 32 ->
  mask len = 2 ^ len - 1
  /\ forall q, Z.testbit (mask len) q = (0 <=? q) && (q <? len).
Proof.
  intros Hlen. rewrite mask_ones by exact Hlen. split.
  - rewrite Z.ones_equiv. lia.
  - intros q. destruct (Z.leb_spec 0 q) as [Hq|Hq]; simpl.
    + apply Z.testbit_ones_nonneg; lia.
    + apply Z.testbit_neg_r. lia.
Qed.

(** X2.  [find_data_by_name] returns the data of the FIRST entry with the
    name, whatever follows it, and [0] when no entry has the name. *)
Theorem find_data_by_name_first_or_zero :
  (forall before d after,
      Forall (fun e => fd_name e <> fd_name d) before ->
      find_data_by_name (before ++ d :: after) (fd_name d) = fd_data d)
  /\ (forall vals name,
         Forall (fun e => fd_name e <> name) vals ->
         find_data_by_name vals name = 0).
Proof.
  split.
  - intros before d after Hbefore.
    induction Hbefore as [|e before He _ IH]; simpl.
    + destruct (decide (fd_name d = fd_name d)); [reflexivity | contradiction].
    + destruct (decide (fd_name e = fd_name d)); [contradiction | exact IH].
  - intros vals name Hvals.
    induction Hvals as [|e vals He _ IH]; simpl; [reflexivity |].
    destruct (decide (fd_name e = name)); [contradiction | exact IH].
Qed.

(** *** Values that the schema does not name *)

Lemma compile_step_same_data vals vals' st f :
  find_data_by_name vals (fl_name f) = find_data_by_name vals' (fl_name f) ->
  compile_step vals st f = compile_step vals' st f.
Proof. intros Heq. unfold compile_step. rewrite Heq. reflexivity. Qed.

Lemma compile_loop_same_data vals vals' schema :
  forall st,
    Forall (fun f => find_data_by_name vals (fl_name f) =
                     find_data_by_name vals' (fl_name f)) schema ->
    compile_loop schema vals st = compile_loop schema vals' st.
Proof.
  induction schema as [|f schema IH]; intros st Hsame; simpl; [reflexivity |].
  inversion Hsame as [|? ? Hf Hrest]; subst.
  rewrite (compile_step_same_data vals vals' st f Hf). apply IH, Hrest.
Qed.

(** The entries of a value vector whose name is [name] for some field of the
    schema. *)
Definition named_by (schema : FiledsLengthVector) (d : FieldDataStruct)
  : bool :=
  existsb (fun f => bool_decide (fl_name f = fd_name d)) schema.

Lemma find_data_by_name_filter schema vals f :
  In f schema ->
  find_data_by_name vals (fl_name f) =
  find_data_by_name (List.filter (named_by schema) vals) (fl_name f).
Proof.
  intros Hin. induction vals as [|d vals IH]; simpl; [reflexivity |].
  destruct (decide (fd_name d = fl_name f)) as [Heq|Hne].
  - assert (Hnamed : named_by schema d = true).
    { unfold named_by. apply existsb_exists. exists f. split; [exact Hin |].
      apply bool_decide_eq_true. symmetry. exact Heq. }
    rewrite Hnamed. simpl.
    destruct (decide (fd_name d = fl_name f)); [reflexivity | contradiction].
  - destruct (named_by schema d); simpl; [| exact IH].
    destruct (decide (fd_name d = fl_name f)); [contradiction | exact IH].
Qed.

(** X3.  Values whose name is not the name of any field of the schema play
    no part: dropping them from the value vector gives the same key. *)
Theorem compileKey_ignores_unknown_names schema key vals :
  compileKey schema key vals =
  compileKey schema key (List.filter (named_by schema) vals).
Proof.
  unfold compileKey. f_equal. f_equal.
  apply compile_loop_same_data. apply List.Forall_forall.
  intros f Hin. apply find_data_by_name_filter, Hin.
Qed.

(** X4.  The array keeps its length, and with [SPU_WEIGHT >= 1] the word
    index stays within [0, SPU_WEIGHT) after every field, so an array of
    [SPU_WEIGHT] words is never indexed outside of its bounds. *)
Theorem compileKey_stays_in_bounds schema key vals :
  1 <= SPU_WEIGHT ->
  length (snd (compileKey schema key vals)) = length key
  /\ forall fields rest,
       schema = fields ++ rest ->
       0 <= st_weight (compile_loop fields vals (mkState key 0 0))
         < SPU_WEIGHT.
Proof.
  intros HW. split.
  - unfold compileKey. simpl. apply compile_loop_length.
  - intros fields rest _. apply compile_loop_weight_bound. simpl. lia.
Qed.


(** *** Fields that lie within one word

    When the lengths are between 1 and 32 and the schema fits the key, the
    write position is exactly the number of bits consumed so far. *)
Definition packed_at (st : compile_state) (T : Z) : Prop :=
  0 <= st_weight st < SPU_WEIGHT /\ 0 <= st_shift st <= 32 /\
  32 * st_weight st + st_shift st = T /\
  (st_shift st = 32 -> st_weight st = SPU_WEIGHT - 1).

Lemma wrap32_small (x : Z) : 0 <= x < 2 ^ 32 -> wrap32 x = x.
Proof. intros Hx. unfold wrap32. apply Z.mod_small, Hx. Qed.

Lemma wrap8_small (x : Z) : 0 <= x < 2 ^ 8 -> wrap8 x = x.
Proof. intros Hx. unfold wrap8. apply Z.mod_small, Hx. Qed.

Lemma key_bit_or_at_clear (key : list Z) (w x p : Z) :
  (p / 32 = w -> Z.testbit x (p mod 32) = false) ->
  0 <= w -> 0 <= p ->
  key_bit (or_at key w x) p = key_bit key p.
Proof.
  unfold key_bit, or_at. intros Hx Hw Hp. rewrite !nth_lookup.
  assert (0 <= p / 32) by (apply Z.div_pos; lia).
  destruct (decide (Z.to_nat w = Z.to_nat (p / 32))) as [Heq|Hne].
  - rewrite <- Heq. rewrite list_lookup_alter_eq.
    destruct (key !! Z.to_nat w) as [old|]; simpl; [| reflexivity].
    rewrite Z.lor_spec, Hx by lia. apply orb_false_r.
  - rewrite list_lookup_alter_ne by exact Hne. reflexivity.
Qed.

Lemma key_bit_or_at_set (key : list Z) (w x p : Z) :
  p / 32 = w -> (Z.to_nat w < length key)%nat ->
  key_bit (or_at key w x) p = key_bit key p || Z.testbit x (p mod 32).
Proof.
  unfold key_bit, or_at. intros <- Hlen. rewrite !nth_lookup.
  rewrite list_lookup_alter_eq.
  destruct (lookup_lt_is_Some_2 key _ Hlen) as [old ->]. simpl.
  apply Z.lor_spec.
Qed.

Lemma shl32_bit (x n q : Z) :
  0 <= n -> 0 <= q < 32 -> n < 32 ->
  Z.testbit (shl32 x n) q = Z.testbit x (q - n).
Proof.
  intros Hn Hq Hlt. unfold shl32, wrap32.
  destruct (Z.ltb_spec n 32) as [_|Hge]; [| lia].
  rewrite Z.mod_pow2_bits_low by lia. apply Z.shiftl_spec. lia.
Qed.

Section WithinCapacity.

Variables (vals : FieldsDataVector) (st : compile_state)
          (f : FieldLengthStruct) (T : Z).
Hypothesis Hweight : SPU_WEIGHT <= 256.
Hypothesis Hlen : 1 <= fl_length f <= 32.
Hypothesis Hfit : T + fl_length f <= 32 * SPU_WEIGHT.
Hypothesis Hat : packed_at st T.

Lemma packed_at_shift_lt : st_shift st < 32.
Proof. destruct Hat as (Hw & Hs & Hpos & Hlast). lia. Qed.

Lemma wrap32_next_shift :
  wrap32 (st_shift st + fl_length f) = st_shift st + fl_length f.
Proof.
  pose proof packed_at_shift_lt. destruct Hat as (Hw & Hs & _).
  apply wrap32_small. lia.
Qed.

Lemma compile_step_packed_at :
  packed_at (compile_step vals st f) (T + fl_length f).
Proof.
  pose proof packed_at_shift_lt as Hlt.
  destruct Hat as (Hw & Hs & Hpos & Hlast).
  unfold compile_step, packed_at. rewrite wrap32_next_shift.
  destruct ((32 <=? st_shift st + fl_length f) &&
            (st_weight st <? SPU_WEIGHT - 1)) eqn:Hadv; simpl.
  - apply andb_true_iff in Hadv as [H32 Hnl].
    apply Z.leb_le in H32. apply Z.ltb_lt in Hnl.
    rewrite wrap8_small by lia. lia.
  - apply andb_false_iff in Hadv as [H32|Hnl].
    + apply Z.leb_gt in H32. lia.
    + apply Z.ltb_ge in Hnl. lia.
Qed.

(** A step leaves every bit below the write position as it was. *)
Lemma compile_step_keeps_low_bits p :
  0 <= p < T ->
  key_bit (st_key (compile_step vals st f)) p = key_bit (st_key st) p.
Proof.
  intros Hp. pose proof packed_at_shift_lt as Hlt.
  destruct Hat as (Hw & Hs & Hpos & Hlast).
  pose proof (Z.div_mod p 32 ltac:(lia)) as Hdm.
  pose proof (Z.mod_pos_bound p 32 ltac:(lia)) as Hmod.
  assert (Hfirst : forall x,
            key_bit (or_at (st_key st) (st_weight st)
                           (shl32 x (st_shift st))) p = key_bit (st_key st) p).
  { intros x. apply key_bit_or_at_clear; [| lia | lia].
    intros Hword. rewrite shl32_bit by lia.
    apply Z.testbit_neg_r. lia. }
  unfold compile_step. rewrite wrap32_next_shift.
  destruct ((32 <=? st_shift st + fl_length f) &&
            (st_weight st <? SPU_WEIGHT - 1)) eqn:Hadv; simpl.
  - apply andb_true_iff in Hadv as [_ Hnl]. apply Z.ltb_lt in Hnl.
    rewrite wrap8_small by lia.
    rewrite key_bit_or_at_clear; [apply Hfirst | | lia | lia].
    intros Hword. lia.
  - apply Hfirst.
Qed.

(** A step puts the bits of a field that lies within the current word where
    the schema places them. *)
Lemma compile_step_places_field i :
  (forall p, T <= p -> key_bit (st_key st) p = false) ->
  st_shift st + fl_length f <= 32 ->
  (Z.to_nat (st_weight st) < length (st_key st))%nat ->
  0 <= i < fl_length f ->
  key_bit (st_key (compile_step vals st f)) (T + i) =
  Z.testbit (find_data_by_name vals (fl_name f)) i.
Proof.
  intros Hclear Hin Hword Hi.
  destruct Hat as (Hw & Hs & Hpos & Hlast).
  assert (Hdiv : (T + i) / 32 = st_weight st).
  { symmetry. apply (Z.div_unique _ _ _ (st_shift st + i)); lia. }
  assert (Hmod : (T + i) mod 32 = st_shift st + i).
  { symmetry. apply (Z.mod_unique _ _ (st_weight st)); lia. }
  assert (Hfirst :
    key_bit (or_at (st_key st) (st_weight st)
               (shl32 (Z.land (find_data_by_name vals (fl_name f))
                              (mask (fl_length f))) (st_shift st))) (T + i)
    = Z.testbit (find_data_by_name vals (fl_name f)) i).
  { rewrite key_bit_or_at_set by assumption.
    rewrite Hclear by lia. simpl. rewrite Hmod.
    rewrite shl32_bit by lia.
    replace (st_shift st + i - st_shift st) with i by lia.
    rewrite Z.land_spec, mask_ones by lia.
    rewrite Z.testbit_ones_nonneg by lia.
    destruct (Z.ltb_spec i (fl_length f)); [apply andb_true_r | lia]. }
  unfold compile_step. rewrite wrap32_next_shift.
  destruct ((32 <=? st_shift st + fl_length f) &&
            (st_weight st <? SPU_WEIGHT - 1)) eqn:Hadv; simpl.
  - apply andb_true_iff in Hadv as [_ Hnl]. apply Z.ltb_lt in Hnl.
    rewrite wrap8_small by lia.
    rewrite key_bit_or_at_clear; [apply Hfirst | | lia | lia].
    intros Hnext. lia.
  - apply Hfirst.
Qed.

End WithinCapacity.

(** Every length is between 1 and 32. *)
Definition word_fields (schema : FiledsLengthVector) : Prop :=
  Forall (fun g => 1 <= fl_length g <= 32) schema.

Lemma total_width_app (a b : FiledsLengthVector) :
  total_width (a ++ b) = total_width a + total_width b.
Proof.
  induction a as [|g a IH]; simpl; [reflexivity |]. rewrite IH. lia.
Qed.

Lemma total_width_nonneg schema : word_fields schema -> 0 <= total_width schema.
Proof.
  intros Hwf. induction Hwf as [|g schema Hg _ IH]; simpl; lia.
Qed.

Lemma word_fields_wf schema : word_fields schema -> wf_schema schema.
Proof.
  unfold word_fields, wf_schema. intros Hwf.
  eapply Forall_impl; [exact Hwf |]. simpl. intros g Hg. lia.
Qed.

Lemma compile_loop_packed_at vals schema :
  forall st T,
    SPU_WEIGHT <= 256 ->
    word_fields schema ->
    T + total_width schema <= 32 * SPU_WEIGHT ->
    packed_at st T ->
    packed_at (compile_loop schema vals st) (T + total_width schema).
Proof.
  induction schema as [|g schema IH]; intros st T HW Hwf Hfit Hat; simpl.
  - replace (T + 0) with T by lia. exact Hat.
  - inversion Hwf as [|? ? Hg Hrest]; subst. simpl in Hfit.
    pose proof (total_width_nonneg schema Hrest).
    replace (T + (fl_length g + total_width schema))
      with ((T + fl_length g) + total_width schema) by lia.
    apply IH; [exact HW | exact Hrest | lia |].
    apply compile_step_packed_at; [exact HW | exact Hg | lia | exact Hat].
Qed.

Lemma compile_loop_keeps_low_bits vals schema :
  forall st T p,
    SPU_WEIGHT <= 256 ->
    word_fields schema ->
    T + total_width schema <= 32 * SPU_WEIGHT ->
    packed_at st T ->
    0 <= p < T ->
    key_bit (st_key (compile_loop schema vals st)) p = key_bit (st_key st) p.
Proof.
  induction schema as [|g schema IH]; intros st T p HW Hwf Hfit Hat Hp; simpl.
  - reflexivity.
  - inversion Hwf as [|? ? Hg Hrest]; subst. simpl in Hfit.
    pose proof (total_width_nonneg schema Hrest).
    rewrite (IH _ (T + fl_length g)); [| exact HW | exact Hrest | lia | | lia].
    + apply (compile_step_keeps_low_bits vals st g T); try assumption; lia.
    + apply compile_step_packed_at; [exact HW | exact Hg | lia | exact Hat].
Qed.

(** X5.  Round trip for a field that does not straddle a word boundary.
    With lengths between 1 and 32, a schema that fits [SPU_WEIGHT <= 256]
    words and an array of at least that many zero words, bit [i] of the
    field's value is found at bit [offset + i] of the compiled key, where
    [offset] is the sum of the lengths declared before the field. *)
Theorem compileKey_field_round_trip before f after vals n i :
  SPU_WEIGHT <= 256 ->
  SPU_WEIGHT <= Z.of_nat n ->
  word_fields (before ++ f :: after) ->
  total_width (before ++ f :: after) <= 32 * SPU_WEIGHT ->
  total_width before mod 32 + fl_length f <= 32 ->
  0 <= i < fl_length f ->
  key_bit (snd (compileKey (before ++ f :: after) (repeat 0 n) vals))
          (total_width before + i)
  = Z.testbit (find_data_by_name vals (fl_name f)) i.
Proof.
  intros HW Hn Hwf Hfit Hin Hi.
  apply Forall_app in Hwf as [Hbefore Hrest].
  inversion Hrest as [|? ? Hf Hafter]; subst.
  rewrite total_width_app in Hfit. simpl in Hfit.
  pose proof (total_width_nonneg before Hbefore) as Hb0.
  pose proof (total_width_nonneg after Hafter) as Ha0.
  set (T := total_width before) in *.
  set (st0 := mkState (repeat 0 n) 0 0).
  assert (Hat0 : packed_at st0 0).
  { unfold packed_at. simpl. lia. }
  pose proof (compile_loop_packed_at vals before st0 0 HW Hbefore
                ltac:(lia) Hat0) as Hat.
  pose proof (compile_loop_packed_below vals before st0 0
                (word_fields_wf before Hbefore)) as Hbelow.
  replace (0 + total_width before) with T in * by (unfold T; lia).
  destruct Hbelow as (_ & _ & _ & Hclear).
  { unfold packed_below. simpl. repeat split; try lia.
    intros q _. apply key_bit_zeros. }
  set (st1 := compile_loop before vals st0) in *.
  unfold compileKey. simpl. fold st0.
  unfold compile_loop. rewrite fold_left_app. simpl.
  fold (compile_loop before vals st0). fold st1.
  fold (compile_loop after vals (compile_step vals st1 f)).
  rewrite (compile_loop_keeps_low_bits vals after _ (T + fl_length f));
    [| exact HW | exact Hafter | lia | | lia].
  2:{ apply compile_step_packed_at; [exact HW | exact Hf | lia | exact Hat]. }
  destruct Hat as (Hw & Hs & Hpos & Hlast).
  assert (Hshift : st_shift st1 = T mod 32 \/ st_shift st1 = 32).
  { destruct (Z.eq_dec (st_shift st1) 32) as [H32|Hne]; [right; exact H32 |].
    left. apply (Z.mod_unique _ _ (st_weight st1)); lia. }
  destruct Hshift as [Hshift|H32]; [| lia].
  apply (compile_step_places_field vals st1 f T); try assumption;
    try (unfold packed_at; lia).
  assert (Hlength : length (st_key st1) = n).
  { unfold st1. rewrite compile_loop_length. simpl. apply repeat_length. }
  rewrite Hlength. lia.
Qed.


End Key.
End KeyCompiler.

(** ** The schema [[{A,20},{B,20}]] with [SPU_WEIGHT = 2] *)

Module SplitField.
Import KeyCompiler.

Inductive field_name := A | B.

#[global] Instance field_name_eq_dec : EqDecision field_name.
Proof. solve_decision. Defined.

Definition schema : FiledsLengthVector :=
  [mkFieldLength A 20; mkFieldLength B 20].

Definition values (a b : Z) : FieldsDataVector :=
  [mkFieldData A a; mkFieldData B b].

Lemma mask_20 shl_wide : mask shl_wide 20 = 0xFFFFF.
Proof. reflexivity. Qed.

Lemma mask_8 shl_wide : mask shl_wide 8 = 0xFF.
Proof. reflexivity. Qed.

(** C2.  With the schema [[{A,20},{B,20}]], [SPU_WEIGHT = 2] and a zeroed
    array, word 1 of the compiled key receives the LOW eight bits of field B
    (bits 0-7), not its bits 12-19: the residual is shifted right by
    [length - prev_shift = 0] positions before it is ORed into word 1. *)
Theorem compileKey_word1_low_bits_of_B shl_wide shr_wide (a b : Z) :
  nth 1 (snd (compileKey 2 shl_wide shr_wide schema [0; 0] (values a b))) 0
    = Z.land b 0xFF.
Proof.
  change (Z.lor 0 (Z.land (Z.shiftr (Z.land b (mask shl_wide 20)) 0)
                          (mask shl_wide 8)) = Z.land b 0xFF).
  rewrite mask_20, mask_8, Z.lor_0_l, Z.shiftr_0_r, <- Z.land_assoc.
  reflexivity.
Qed.

(** Word 0 is packed as intended: field A in bits 0-19, the low 12 bits of
    field B in bits 20-31. *)
Lemma compileKey_word0 shl_wide shr_wide (a b : Z) :
  nth 0 (snd (compileKey 2 shl_wide shr_wide schema [0; 0] (values a b))) 0
    = Z.lor (wrap32 (Z.land a 0xFFFFF))
            (wrap32 (Z.shiftl (Z.land b 0xFFFFF) 20)).
Proof.
  change (Z.lor (Z.lor 0 (wrap32 (Z.shiftl (Z.land a (mask shl_wide 20)) 0)))
                (wrap32 (Z.shiftl (Z.land b (mask shl_wide 20)) 20))
          = Z.lor (wrap32 (Z.land a 0xFFFFF))
                  (wrap32 (Z.shiftl (Z.land b 0xFFFFF) 20))).
  rewrite mask_20, Z.lor_0_l, Z.shiftl_0_r. reflexivity.
Qed.

(** Field B = 0x12345: its bits 12-19 are 0x12, word 1 holds 0x45. *)
Example compileKey_word1_0x12345 :
  snd (compileKey 2 (fun _ _ => 0) (fun _ _ => 0) schema [0; 0]
         (values 0xABCDE 0x12345)) = [0x345ABCDE; 0x45]
  /\ Z.land (Z.shiftr 0x12345 12) 0xFF = 0x12.
Proof. split; reflexivity. Qed.

End SplitField.

(** ** [compileKey] and the contents of the array on entry *)

Module KeyExamples.
Import KeyCompiler.

Definition one_field : FiledsLengthVector (FieldNameType := nat) :=
  [mkFieldLength 0%nat 8].

Definition one_value : FieldsDataVector (FieldNameType := nat) :=
  [mkFieldData 0%nat 1].

Definition compile2 :=
  compileKey (FieldNameType := nat) 2 (fun _ _ => 0) (fun _ _ => 0).

(** C3, counterexample.  The same schema and values compiled into two arrays
    that differ on entry give different keys, and a bit above the declared
    width (bit 8 of an 8-bit schema) stays set. *)
Lemma compileKey_depends_on_prior_key :
  snd (compile2 one_field [0x100; 0] one_value)
    <> snd (compile2 one_field [0; 0] one_value)
  /\ total_width one_field <= 8
  /\ key_bit (snd (compile2 one_field [0x100; 0] one_value)) 8 = true.
Proof.
  split; [| split].
  - vm_compute. discriminate.
  - vm_compute. discriminate.
  - reflexivity.
Qed.

Lemma compileKey_ors_into_key_witness :
  wf_schema one_field
  /\ snd (compile2 one_field [0x100; 0] one_value) =
       zip_with Z.lor [0x100; 0]
         (snd (compile2 one_field (repeat 0 (length [0x100; 0])) one_value))
  /\ total_width one_field <= 8
  /\ key_bit (snd (compile2 one_field (repeat 0 (length [0x100; 0]))
                     one_value)) 8 = false.
Proof.
  assert (Hwf : wf_schema one_field).
  { repeat constructor; simpl; lia. }
  assert (Hwidth : total_width one_field <= 8).
  { simpl. lia. }
  destruct (compileKey_ors_into_key 2 (fun _ _ => 0) (fun _ _ => 0)
              one_field one_value [0x100; 0] Hwf) as [Hor Hbits].
  split; [exact Hwf |]. split; [exact Hor |]. split; [exact Hwidth |].
  apply Hbits. exact Hwidth.
Defined.

End KeyExamples.

(** ** The key compiler on a three-field schema *)

Module KeyWitnesses.
Import KeyCompiler.

Inductive field_name := A | B | C.

#[global] Instance field_name_eq_dec : EqDecision field_name.
Proof. solve_decision. Defined.

Definition shl_wide (x n : Z) : Z := 0.
Definition shr_wide (x n : Z) : Z := 0.

(** Fields of 20, 12 and 8 bits: A and B fill word 0, C starts word 1. *)
Definition schema : FiledsLengthVector :=
  [mkFieldLength A 20; mkFieldLength B 12; mkFieldLength C 8].

Definition values : FieldsDataVector :=
  [mkFieldData B 0xABC; mkFieldData A 0x12345; mkFieldData B 0xFFF].

Lemma mask_is_low_bits_witness :
  0 <= 12 <= 32 /\ mask shl_wide 12 = 2 ^ 12 - 1.
Proof.
  split; [lia |]. apply (mask_is_low_bits shl_wide 12). lia.
Defined.

Lemma find_data_by_name_first_or_zero_witness :
  find_data_by_name values B = 0xABC /\ find_data_by_name values C = 0.
Proof.
  destruct (find_data_by_name_first_or_zero (FieldNameType := field_name))
    as [Hfirst Hnone].
  split.
  - apply (Hfirst [] (mkFieldData B 0xABC)
                  [mkFieldData A 0x12345; mkFieldData B 0xFFF]).
    constructor.
  - apply Hnone. repeat constructor; simpl; discriminate.
Defined.

Lemma compileKey_stays_in_bounds_witness :
  1 <= 2
  /\ length (snd (compileKey 2 shl_wide shr_wide schema [0; 0] values)) = 2%nat
  /\ 0 <= st_weight (compile_loop 2 shl_wide shr_wide
                       [mkFieldLength A 20; mkFieldLength B 12] values
                       (mkState [0; 0] 0 0)) < 2.
Proof.
  destruct (compileKey_stays_in_bounds 2 shl_wide shr_wide schema [0; 0]
              values ltac:(lia)) as [Hlength Hindex].
  split; [lia |]. split; [exact Hlength |].
  apply (Hindex _ [mkFieldLength C 8]). reflexivity.
Defined.

Lemma compileKey_field_round_trip_witness :
  key_bit (snd (compileKey 2 shl_wide shr_wide schema (repeat 0 2) values))
          (20 + 2)
  = Z.testbit 0xABC 2.
Proof.
  assert (Hweight : 2 <= 256) by lia.
  assert (Hwords : 2 <= Z.of_nat 2) by (simpl; lia).
  assert (Hfields : word_fields schema)
    by (repeat constructor; simpl; lia).
  assert (Hfit : total_width schema <= 32 * 2) by (simpl; lia).
  assert (Hword : total_width [mkFieldLength A 20] mod 32
                  + fl_length (mkFieldLength B 12) <= 32)
    by (vm_compute; discriminate).
  assert (Hbit : 0 <= 2 < fl_length (mkFieldLength B 12)) by (simpl; lia).
  exact (compileKey_field_round_trip 2 shl_wide shr_wide
           [mkFieldLength A 20] (mkFieldLength B 12) [mkFieldLength C 8]
           values 2 2 Hweight Hwords Hfields Hfit Hword Hbit).
Defined.

End KeyWitnesses.

(** ** [spudrv/cmdexec.c] *)

Module Driver.

(** Linux error numbers used by the executor. *)
Definition ENOEXEC : Z := 8.
Definition ENOMEM : Z := 12.
Definition ENOKEY : Z := 126.

(** The command formats and result formats of [spu.h]; a command code belongs
    to at most one of each (the [CASE_CMDFRMT_n] and [CASE_RSLTFRMT_n] case
    labels). *)
Inductive cmd_format :=
  CMDFRMT_0 | CMDFRMT_1 | CMDFRMT_2 | CMDFRMT_3 | CMDFRMT_4 | CMDFRMT_5.
Inductive rslt_format := RSLTFRMT_0 | RSLTFRMT_1 | RSLTFRMT_2.

(** [struct pci_burst]: [count], the register offsets and the data words. *)
Record pci_burst := mkBurst {
  count : Z;
  addr_shift : list Z;
  data : list Z
}.

(** What the executor does on the bus, in order. *)
Inductive bus_event :=
| EvBurstWrite (b : pci_burst)
| EvSingleRead (reg : Z)
| EvBurstRead (b : pci_burst).

Definition is_burst_write (e : bus_event) : bool :=
  match e with EvBurstWrite _ => true | _ => false end.

Definition is_burst_read (e : bus_event) : bool :=
  match e with EvBurstRead _ => true | _ => false end.

Section CmdExec.

(** *** What [spu.h], [pcidrv.h] and [gsidresolver.h] provide

    None of the three headers is among the sources, so their constants,
    macros and functions are parameters of the executor. *)

Variable gsid_t : Type.
Variable SPU_WEIGHT : Z.
Variables KEY_REG VAL_REG CMD_REG POWER_REG STATE_REG_0 SPU_READY_FLAG : Z.
Variables CMD_MASK ADDS : Z.
Variable cmdfrmt_of : Z -> option cmd_format.
Variable rsltfrmt_of : Z -> option rslt_format.
Variable sizeof_rsltfrmt : rslt_format -> Z.
Variables CMD_SHIFT STR_A_SHIFT STR_B_SHIFT STR_R_SHIFT : Z -> Z.

(** [int resolve_gsid(gsid_t, u8 cmd)]: the structure number, positive when
    the identifier is known. *)
Variable resolve_gsid : gsid_t -> Z -> Z.

(** [int create_gsid(gsid_t)]: the return code and the identifier written
    through the argument. *)
Variable create_gsid : Z * gsid_t.

(** The device behind the bus and the three transport primitives. *)
Variable Bus : Type.
Variable pci_burst_write : pci_burst -> Bus -> Bus.
Variable pci_single_read : Z -> Bus -> Z * Bus.
Variable pci_burst_read : pci_burst -> Bus -> list Z * Bus.

(** Memory that the code reads without having written it: the words that lie
    beside a burst's [data] array, by offset from its first word, the value
    of the local [str_b] in the format-5 branch of [init_burst_w], and the
    contents of a result buffer as [kmalloc] hands it out. *)
Variable stray : Z -> Z.
Variable str_b_uninit : Z.

(** The command buffer.  The code reads it through the struct that the
    command's format selects ([CMDFRMT_n(cmd_buf)->...]); the record carries
    the fields of all six structs. *)
Record cmd_buf_t := mkCmd {
  cb_cmd : Z;
  cb_gsid : gsid_t;
  cb_gsid_a : gsid_t;
  cb_gsid_b : gsid_t;
  cb_gsid_r : gsid_t;
  cb_key : list Z;
  cb_val : list Z
}.

(** The result buffer, likewise with the fields of the three result structs. *)
Record rslt_buf_t := mkRslt {
  rb_rslt : status_t;
  rb_gsid : gsid_t;
  rb_key : list Z;
  rb_val : list Z;
  rb_power : Z
}.

Variable fresh_rslt : rslt_buf_t.

(** [a[i]] for a [u32] array: inside the array its word, outside of it
    whatever lies there. *)
Definition word_at (a : list Z) (i : Z) : Z :=
  if (0 <=? i) && (i <? Z.of_nat (length a))
  then nth (Z.to_nat i) a 0
  else stray i.

(** [a[i] = v] *)
Definition set_word (a : list Z) (i v : Z) : list Z :=
  <[Z.to_nat i := v]> a.

(** [kmalloc(count*sizeof(u32), GFP_KERNEL)].  The allocator is taken to
    succeed; the words start as zero. *)
Definition alloc_words (count : Z) : list Z := repeat 0 (Z.to_nat count).

(** [for (i = 0; i < SPU_WEIGHT; i++) body]; [SPU_WEIGHT] fits the [u8]
    counter. *)
Definition for_weight {S : Type} (body : Z -> S -> S) (s : S) : S :=
  fold_left (fun s i => body i s) (seqZ 0 SPU_WEIGHT) s.

(** [static size_t alloc_rslt(const void **res_buf, u8 cmd)]: the returned
    size and [*res_buf] ([None] where the function leaves it untouched).
    Here too the allocator is taken to succeed. *)
Definition alloc_rslt (cmd : Z) : Z * option rslt_buf_t :=
  match rsltfrmt_of cmd with
  | Some f =>
      (sizeof_rsltfrmt f,
       Some (mkRslt ERR (rb_gsid fresh_rslt) (rb_key fresh_rslt)
                    (rb_val fresh_rslt) (rb_power fresh_rslt)))
  | None => (- ENOEXEC, None)
  end.

(** [static void adds(const void *res_buf)] *)
Definition adds (res : rslt_buf_t) : rslt_buf_t :=
  let '(rc, gsid) := create_gsid in
  let res := mkRslt (rb_rslt res) gsid (rb_key res) (rb_val res)
                    (rb_power res) in
  if negb (rc =? 0) then res
  else mkRslt OK (rb_gsid res) (rb_key res) (rb_val res) (rb_power res).

(** The first [switch] of [init_burst_w]: resolve the identifiers and size
    the burst.  [inl code] is [return code]; [inr (count, str, str_a, str_b,
    str_r)] falls through to the allocation. *)
Definition init_burst_w_resolve (cmd : Z) (c : cmd_buf_t)
  : Z + (Z * Z * Z * Z * Z) :=
  match cmdfrmt_of cmd with
  | Some CMDFRMT_1 =>
      let str := resolve_gsid (cb_gsid c) cmd in
      if str <=? 0 then inl (- ENOKEY)
      else inr (wrap8 (SPU_WEIGHT * 2 + 1), str, 0, 0, 0)
  | Some CMDFRMT_2 =>
      let str := resolve_gsid (cb_gsid c) cmd in
      if str <=? 0 then inl (- ENOKEY)
      else inr (wrap8 (SPU_WEIGHT + 1), str, 0, 0, 0)
  | Some CMDFRMT_3 =>
      let str := resolve_gsid (cb_gsid c) cmd in
      if str <=? 0 then inl (- ENOKEY)
      else inr (1, str, 0, 0, 0)
  | Some CMDFRMT_4 =>
      let str_a := resolve_gsid (cb_gsid_a c) cmd in
      if str_a <=? 0 then inl (- ENOKEY)
      else
        let str_b := resolve_gsid (cb_gsid_b c) cmd in
        if str_b <=? 0 then inl (- ENOKEY)
        else
          let str_r := resolve_gsid (cb_gsid_r c) cmd in
          if str_b <=? 0 then inl (- ENOKEY)
          else inr (1, 0, str_a, str_b, str_r)
  | Some CMDFRMT_5 =>
      let str_a := resolve_gsid (cb_gsid_a c) cmd in
      if str_a <=? 0 then inl (- ENOKEY)
      else
        let str_r := resolve_gsid (cb_gsid_r c) cmd in
        if str_b_uninit <=? 0 then inl (- ENOKEY)
        else inr (1, 0, str_a, str_b_uninit, str_r)
  | _ => inl (- ENOEXEC)
  end.

(** [static int init_burst_w(struct pci_burst *, u8 cmd, const void *cmd_buf)]:
    [inl code] for a non-zero return, [inr burst] for [return 0]. *)
Definition init_burst_w (cmd : Z) (c : cmd_buf_t) : Z + pci_burst :=
  match init_burst_w_resolve cmd c with
  | inl code => inl code
  | inr (count, str, str_a, str_b, str_r) =>
      let addr := alloc_words count in
      let dat := alloc_words count in
      match cmdfrmt_of cmd with
      | Some CMDFRMT_1 =>
          let '(addr, dat) :=
            for_weight (fun i '(addr, dat) =>
              let addr := set_word addr i (KEY_REG + i) in
              let dat := set_word dat i (nth (Z.to_nat i) (cb_key c) 0) in
              let addr := set_word addr (i + SPU_WEIGHT) (VAL_REG + i) in
              let dat := set_word dat (i + SPU_WEIGHT)
                                  (nth (Z.to_nat i) (cb_val c) 0) in
              (addr, dat)) (addr, dat) in
          inr (mkBurst count
                 (set_word addr (count - 1) CMD_REG)
                 (set_word dat (count - 1)
                    (wrap32 (Z.lor (CMD_SHIFT (cb_cmd c)) str))))
      | Some CMDFRMT_2 =>
          let '(addr, dat) :=
            for_weight (fun i '(addr, dat) =>
              let addr := set_word addr i (KEY_REG + i) in
              let dat := set_word dat i (nth (Z.to_nat i) (cb_key c) 0) in
              (addr, dat)) (addr, dat) in
          inr (mkBurst count
                 (set_word addr (count - 1) CMD_REG)
                 (set_word dat (count - 1)
                    (wrap32 (Z.lor (CMD_SHIFT (cb_cmd c)) str))))
      | Some CMDFRMT_3 =>
          inr (mkBurst count
                 (set_word addr 0 CMD_REG)
                 (set_word dat 0 (wrap32 (Z.lor (CMD_SHIFT (cb_cmd c)) str))))
      | Some CMDFRMT_4 =>
          inr (mkBurst count
                 (set_word addr 0 CMD_REG)
                 (set_word dat 0
                    (wrap32 (Z.lor (Z.lor (Z.lor (CMD_SHIFT (cb_cmd c))
                                                 (STR_A_SHIFT str_a))
                                          (STR_B_SHIFT str_b))
                                   (STR_R_SHIFT str_r)))))
      | Some CMDFRMT_5 =>
          inr (mkBurst count
                 (set_word addr 0 CMD_REG)
                 (set_word dat 0
                    (wrap32 (Z.lor (Z.lor (CMD_SHIFT (cb_cmd c))
                                          (STR_A_SHIFT str_a))
                                   (STR_R_SHIFT str_r)))))
      | _ => inl (- ENOMEM)
      end
  end.

(** [static int init_burst_r(struct pci_burst *, u8 cmd)] *)
Definition init_burst_r (cmd : Z) : Z + pci_burst :=
  match rsltfrmt_of cmd with
  | Some RSLTFRMT_1 =>
      let count := 1 in
      let addr := alloc_words count in
      let dat := alloc_words count in
      inr (mkBurst count (set_word addr 0 POWER_REG) dat)
  | Some RSLTFRMT_2 =>
      let count := wrap8 (SPU_WEIGHT * 2 + 1) in
      let addr := alloc_words count in
      let dat := alloc_words count in
      let addr :=
        for_weight (fun i addr =>
          let addr := set_word addr i (KEY_REG + i) in
          set_word addr (i + SPU_WEIGHT) (VAL_REG + i)) addr in
      inr (mkBurst count (set_word addr (count - 1) POWER_REG) dat)
  | _ => inl (- ENOEXEC)
  end.

(** [static void set_rsltfrmt(struct pci_burst *, u8 cmd, const void *res_buf)].
    The function has a local [u8 count = 0] of its own, which it never
    assigns; [count-1] is the [int] value [-1]. *)
Definition set_rsltfrmt (b : pci_burst) (cmd : Z) (res : rslt_buf_t)
  : rslt_buf_t :=
  let count := 0 in
  match rsltfrmt_of cmd with
  | Some RSLTFRMT_1 =>
      mkRslt OK (rb_gsid res) (rb_key res) (rb_val res)
             (word_at (data b) (count - 1))
  | Some RSLTFRMT_2 =>
      let '(key, val) :=
        for_weight (fun i '(key, val) =>
          (set_word key i (word_at (data b) i),
           set_word val i (word_at (data b) (i + SPU_WEIGHT))))
          (rb_key res, rb_val res) in
      mkRslt OK (rb_gsid res) key val (word_at (data b) (count - 1))
  | _ => res
  end.

(** The polling loop of [execute_cmd]:
    [do { ... } while ((pci_single_read(STATE_REG_0) & (1<<SPU_READY_FLAG)) == 0);]
    It has no bound of its own; [fuel] bounds the number of reads, and [None]
    says that the device was not ready within them. *)
Fixpoint poll_ready (fuel : nat) (bus : Bus) (log : list bus_event)
  : option (Bus * list bus_event) :=
  match fuel with
  | O => None
  | S fuel' =>
      let '(state, bus) := pci_single_read STATE_REG_0 bus in
      let log := log ++ [EvSingleRead STATE_REG_0] in
      if Z.land state (Z.shiftl 1 SPU_READY_FLAG) =? 0
      then poll_ready fuel' bus log
      else Some (bus, log)
  end.

(** What a call of [execute_cmd] leaves behind: the returned value, the
    result buffer ([None] when none was allocated), the bus accesses in
    order, and the device. *)
Record outcome := mkOutcome {
  ret : Z;
  res_buf : option rslt_buf_t;
  log : list bus_event;
  bus_after : Bus
}.

(** [size_t execute_cmd(const void *cmd_buf, const void **res_buf)] *)
Definition execute_cmd (fuel : nat) (c : cmd_buf_t) (bus : Bus)
  : option outcome :=
  let cmd := cb_cmd c in
  let pure_cmd := Z.land cmd CMD_MASK in
  let '(rslt_size, res) := alloc_rslt pure_cmd in
  if pure_cmd =? ADDS then
    Some (mkOutcome rslt_size (adds <$> res) [] bus)
  else
    match init_burst_w pure_cmd c with
    | inl _ => Some (mkOutcome (- ENOMEM) res [] bus)
    | inr pci_burst_w =>
        match init_burst_r pure_cmd with
        | inl _ => Some (mkOutcome (- ENOMEM) res [] bus)
        | inr pci_burst_r =>
            let bus := pci_burst_write pci_burst_w bus in
            let log := [EvBurstWrite pci_burst_w] in
            match poll_ready fuel bus log with
            | None => None
            | Some (bus, log) =>
                let '(words, bus) := pci_burst_read pci_burst_r bus in
                let log := log ++ [EvBurstRead pci_burst_r] in
                let pci_burst_r :=
                  mkBurst (count pci_burst_r) (addr_shift pci_burst_r) words in
                Some (mkOutcome rslt_size
                        (set_rsltfrmt pci_burst_r pure_cmd <$> res) log bus)
            end
        end
    end.

(** *** Decoding the read burst *)

Lemma word_at_before_start (a : list Z) : word_at a (0 - 1) = stray (-1).
Proof. reflexivity. Qed.

(** C1.  For the result formats 1 and 2 the power field of the decoded
    result is the word that lies one position BEFORE the read-back data, and
    not the word at index [count b - 1] that [init_burst_r] addressed to the
    POWER register: [set_rsltfrmt] indexes with its own local [count], which
    is 0. *)
Theorem set_rsltfrmt_power_outside_burst b cmd res :
  rb_power (set_rsltfrmt b cmd res) =
    match rsltfrmt_of cmd with
    | Some RSLTFRMT_1 | Some RSLTFRMT_2 => stray (-1)
    | _ => rb_power res
    end.
Proof.
  unfold set_rsltfrmt.
  destruct (rsltfrmt_of cmd) as [[| |]|]; try reflexivity.
  destruct (for_weight _ _) as [key val]. reflexivity.
Qed.

Lemma for_weight_length (body : Z -> list Z -> list Z) (a : list Z) :
  (forall i a', length (body i a') = length a') ->
  length (for_weight body a) = length a.
Proof.
  intros Hbody. unfold for_weight.
  generalize (seqZ 0 SPU_WEIGHT) as l. intros l. revert a.
  induction l as [|i l IH]; intros a; simpl; [reflexivity |].
  rewrite IH. apply Hbody.
Qed.

(** [init_burst_r] does address the last word of the read burst, the one at
    index [count - 1], to the POWER register. *)
Lemma init_burst_r_power_last cmd b :
  init_burst_r cmd = inr b ->
  0 < count b ->
  Z.of_nat (length (addr_shift b)) = count b /\
  nth (Z.to_nat (count b - 1)) (addr_shift b) 0 = POWER_REG.
Proof.
  unfold init_burst_r. intros Hb Hpos.
  destruct (rsltfrmt_of cmd) as [[| |]|]; try discriminate;
    injection Hb as <-; simpl in *.
  - split; reflexivity.
  - set (n := wrap8 (SPU_WEIGHT * 2 + 1)) in *.
    assert (Hlen : length (for_weight
              (fun i addr => set_word (set_word addr i (KEY_REG + i))
                                      (i + SPU_WEIGHT) (VAL_REG + i))
              (alloc_words n)) = Z.to_nat n).
    { rewrite for_weight_length.
      - unfold alloc_words. apply repeat_length.
      - intros i a'. unfold set_word. rewrite !length_insert. reflexivity. }
    set (a := for_weight _ _) in *. unfold set_word.
    rewrite length_insert, Hlen. split; [lia |].
    rewrite nth_lookup, list_lookup_insert_eq; [reflexivity |].
    rewrite Hlen. lia.
Qed.

Lemma set_rsltfrmt_status b cmd res :
  rb_rslt (set_rsltfrmt b cmd res) =
    match rsltfrmt_of cmd with
    | Some RSLTFRMT_1 | Some RSLTFRMT_2 => OK
    | _ => rb_rslt res
    end.
Proof.
  unfold set_rsltfrmt.
  destruct (rsltfrmt_of cmd) as [[| |]|]; try reflexivity.
  destruct (for_weight _ _) as [key val]. reflexivity.
Qed.

(** *** The bus log of [execute_cmd] *)

Lemma poll_ready_log fuel :
  forall bus log bus' log',
    poll_ready fuel bus log = Some (bus', log') ->
    exists polls,
      log' = log ++ polls /\ Forall (fun e => is_burst_read e = false) polls.
Proof.
  induction fuel as [|fuel IH]; intros bus log bus' log' Hp; simpl in Hp.
  - discriminate.
  - destruct (pci_single_read STATE_REG_0 bus) as [state bus1].
    destruct (Z.land state (Z.shiftl 1 SPU_READY_FLAG) =? 0).
    + apply IH in Hp as (polls & -> & Hpolls).
      exists (EvSingleRead STATE_REG_0 :: polls). split.
      * rewrite <- app_assoc. reflexivity.
      * constructor; [reflexivity | exact Hpolls].
    + injection Hp as <- <-.
      exists [EvSingleRead STATE_REG_0]. split; [reflexivity |].
      constructor; [reflexivity | constructor].
Qed.

(** Fuel only bounds the wait: a device that is ready within [fuel] reads
    gives the same result with any larger bound. *)
Lemma poll_ready_more_fuel fuel k :
  forall bus log r,
    poll_ready fuel bus log = Some r ->
    poll_ready (fuel + k) bus log = Some r.
Proof.
  induction fuel as [|fuel IH]; intros bus log r Hp; simpl in *.
  - discriminate.
  - destruct (pci_single_read STATE_REG_0 bus) as [state bus1].
    destruct (Z.land state (Z.shiftl 1 SPU_READY_FLAG) =? 0).
    + apply IH, Hp.
    + exact Hp.
Qed.

Lemma execute_cmd_more_fuel fuel k c bus o :
  execute_cmd fuel c bus = Some o ->
  execute_cmd (fuel + k) c bus = Some o.
Proof.
  unfold execute_cmd.
  destruct (alloc_rslt _) as [rslt_size res].
  destruct (_ =? ADDS); [trivial |].
  destruct (init_burst_w _ c) as [code|bw]; [trivial |].
  destruct (init_burst_r _) as [code|br]; [trivial |].
  destruct (poll_ready fuel _ _) as [r|] eqn:Hpoll; [| discriminate].
  rewrite (poll_ready_more_fuel fuel k _ _ r Hpoll). trivial.
Qed.

(** The three ways in which a call that returns has gone. *)
Lemma execute_cmd_cases fuel c bus o :
  execute_cmd fuel c bus = Some o ->
  let pure_cmd := Z.land (cb_cmd c) CMD_MASK in
  (pure_cmd = ADDS /\ log o = [])
  \/ (pure_cmd <> ADDS /\ ret o = - ENOMEM /\ log o = [] /\
      bus_after o = bus /\
      ((exists code, init_burst_w pure_cmd c = inl code) \/
       (exists code, init_burst_r pure_cmd = inl code)))
  \/ (pure_cmd <> ADDS /\
      exists bw br polls words,
        init_burst_w pure_cmd c = inr bw /\
        init_burst_r pure_cmd = inr br /\
        log o = EvBurstWrite bw :: polls ++ [EvBurstRead br] /\
        res_buf o =
          (set_rsltfrmt (mkBurst (count br) (addr_shift br) words) pure_cmd
             <$> snd (alloc_rslt pure_cmd))).
Proof.
  unfold execute_cmd. intros Hex. simpl.
  destruct (alloc_rslt (Z.land (cb_cmd c) CMD_MASK)) as [rslt_size res].
  destruct (Z.eqb_spec (Z.land (cb_cmd c) CMD_MASK) ADDS) as [Heq|Hne].
  { injection Hex as <-. left. split; [exact Heq | reflexivity]. }
  right.
  destruct (init_burst_w _ c) as [code|bw] eqn:Hw.
  { injection Hex as <-. left. simpl. repeat split; try done.
    left. exists code. reflexivity. }
  destruct (init_burst_r _) as [code|br] eqn:Hr.
  { injection Hex as <-. left. simpl. repeat split; try done.
    right. exists code. reflexivity. }
  destruct (poll_ready fuel _ _) as [[bus1 log1]|] eqn:Hpoll; [| discriminate].
  destruct (pci_burst_read br bus1) as [words bus2].
  injection Hex as <-. right. split; [exact Hne |].
  apply poll_ready_log in Hpoll as (polls & -> & _).
  exists bw, br, polls, words. simpl. repeat split; reflexivity.
Qed.



(** C4.  A format-4 command whose identifiers A and B resolve and whose
    result identifier R does not is NOT rejected: the test after resolving R
    looks at [str_b] again, so [init_burst_w] succeeds and a call that
    returns has issued the write burst and reports the result size. *)
Theorem execute_cmd_unresolved_r_reaches_bus fuel c bus o :
  let pure_cmd := Z.land (cb_cmd c) CMD_MASK in
  pure_cmd <> ADDS ->
  cmdfrmt_of pure_cmd = Some CMDFRMT_4 ->
  0 < resolve_gsid (cb_gsid_a c) pure_cmd ->
  0 < resolve_gsid (cb_gsid_b c) pure_cmd ->
  resolve_gsid (cb_gsid_r c) pure_cmd <= 0 ->
  (rsltfrmt_of pure_cmd = Some RSLTFRMT_1 \/
   rsltfrmt_of pure_cmd = Some RSLTFRMT_2) ->
  execute_cmd fuel c bus = Some o ->
  existsb is_burst_write (log o) = true /\
  ret o = fst (alloc_rslt pure_cmd).
Proof.
  intros pure_cmd Hne Hfmt Ha Hb Hr Hrf Hex.
  unfold execute_cmd in Hex. fold pure_cmd in Hex.
  destruct (alloc_rslt pure_cmd) as [rslt_size res].
  destruct (Z.eqb_spec pure_cmd ADDS) as [Heq|_]; [contradiction |].
  unfold init_burst_w, init_burst_w_resolve in Hex. rewrite Hfmt in Hex.
  destruct (Z.leb_spec (resolve_gsid (cb_gsid_a c) pure_cmd) 0); [lia |].
  destruct (Z.leb_spec (resolve_gsid (cb_gsid_b c) pure_cmd) 0); [lia |].
  unfold init_burst_r in Hex.
  destruct Hrf as [Hrf|Hrf]; rewrite Hrf in Hex;
    (destruct (poll_ready fuel _ _) as [[bus1 log1]|] eqn:Hpoll;
       [| discriminate]);
    apply poll_ready_log in Hpoll as (polls & -> & _);
    destruct (pci_burst_read _ bus1) as [words bus2];
    injection Hex as <-; simpl; split; reflexivity.
Qed.

(** C9.  Decoding sets the status to [OK] for the result formats 1 and 2
    whatever the burst holds, and never sets it to [ERR]; so a call of
    [execute_cmd] that went as far as the read burst returns a result whose
    status is [OK]. *)
Theorem decoded_status_always_ok :
  (forall b cmd res,
      rsltfrmt_of cmd = Some RSLTFRMT_1 \/
      rsltfrmt_of cmd = Some RSLTFRMT_2 ->
      rb_rslt (set_rsltfrmt b cmd res) = OK)
  /\ (forall b cmd res,
         rb_rslt (set_rsltfrmt b cmd res) = ERR -> rb_rslt res = ERR)
  /\ (forall fuel c bus o,
         execute_cmd fuel c bus = Some o ->
         existsb is_burst_read (log o) = true ->
         Z.land (cb_cmd c) CMD_MASK <> ADDS /\
         exists r, res_buf o = Some r /\ rb_rslt r = OK).
Proof.
  split; [| split].
  - intros b cmd res Hrf. rewrite set_rsltfrmt_status.
    destruct Hrf as [-> | ->]; reflexivity.
  - intros b cmd res Herr. rewrite set_rsltfrmt_status in Herr.
    destruct (rsltfrmt_of cmd) as [[| |]|]; try discriminate; exact Herr.
  - intros fuel c bus o Hex Hread.
    apply execute_cmd_cases in Hex. simpl in Hex.
    destruct Hex as [[_ Hlog] | [(_ & _ & Hlog & _) | (Hne & Hrun)]].
    + rewrite Hlog in Hread. discriminate.
    + rewrite Hlog in Hread. discriminate.
    + split; [exact Hne |].
      destruct Hrun as (bw & br & polls & words & _ & Hr & _ & Hres).
      rewrite Hres. unfold alloc_rslt. unfold init_burst_r in Hr.
      destruct (rsltfrmt_of (Z.land (cb_cmd c) CMD_MASK)) as [[| |]|] eqn:Hrf;
        try discriminate; simpl; eexists; (split; [reflexivity |]);
        rewrite set_rsltfrmt_status, Hrf; reflexivity.
Qed.


(** *** The course of a call *)

(** [waited n bus bus']: starting from [bus], the status register was read
    [n] times; the first [n - 1] reads found the ready flag clear, the last
    one found it set and left the device as [bus']. *)
Inductive waited : nat -> Bus -> Bus -> Prop :=
| waited_ready bus state bus' :
    pci_single_read STATE_REG_0 bus = (state, bus') ->
    Z.land state (Z.shiftl 1 SPU_READY_FLAG) <> 0 ->
    waited 1 bus bus'
| waited_busy n bus state bus1 bus' :
    pci_single_read STATE_REG_0 bus = (state, bus1) ->
    Z.land state (Z.shiftl 1 SPU_READY_FLAG) = 0 ->
    waited n bus1 bus' ->
    waited (S n) bus bus'.

Lemma poll_ready_waited fuel :
  forall bus log bus' log',
    poll_ready fuel bus log = Some (bus', log') ->
    exists n,
      (1 <= n <= fuel)%nat /\ waited n bus bus' /\
      log' = log ++ repeat (EvSingleRead STATE_REG_0) n.
Proof.
  induction fuel as [|fuel IH]; intros bus log bus' log' Hp; simpl in Hp.
  - discriminate.
  - destruct (pci_single_read STATE_REG_0 bus) as [state bus1] eqn:Hread.
    destruct (Z.eqb_spec (Z.land state (Z.shiftl 1 SPU_READY_FLAG)) 0)
      as [Hbusy|Hready].
    + apply IH in Hp as (n & Hn & Hw & ->).
      exists (S n). split; [lia |]. split.
      * eapply waited_busy; eassumption.
      * rewrite <- app_assoc. reflexivity.
    + injection Hp as <- <-. exists 1%nat. split; [lia |]. split.
      * eapply waited_ready; eassumption.
      * reflexivity.
Qed.

Lemma waited_poll_ready n bus bus' :
  waited n bus bus' ->
  forall fuel log,
    (n <= fuel)%nat ->
    poll_ready fuel bus log =
      Some (bus', log ++ repeat (EvSingleRead STATE_REG_0) n).
Proof.
  induction 1 as [bus state bus' Hread Hready
                 |n bus state bus1 bus' Hread Hbusy _ IH];
    intros fuel log Hfuel;
    (destruct fuel as [|fuel]; [lia |]); simpl; rewrite Hread.
  - destruct (Z.eqb_spec (Z.land state (Z.shiftl 1 SPU_READY_FLAG)) 0);
      [contradiction | reflexivity].
  - rewrite Hbusy. simpl. rewrite IH by lia.
    rewrite <- app_assoc. reflexivity.
Qed.


(** X8.  A call that returns has either not touched the bus at all, or has
    done exactly this, in this order: the write burst built by
    [init_burst_w], then [n >= 1] reads of the status register of which only
    the last found the ready flag set, then the read burst built by
    [init_burst_r].  In the second case it returns the size of the command's
    result format and the result decoded from the words read back. *)
Theorem execute_cmd_bus_protocol fuel c bus o :
  execute_cmd fuel c bus = Some o ->
  let pure_cmd := Z.land (cb_cmd c) CMD_MASK in
  (log o = [] /\ bus_after o = bus)
  \/ exists bw br n bus_ready,
       init_burst_w pure_cmd c = inr bw /\
       init_burst_r pure_cmd = inr br /\
       (1 <= n <= fuel)%nat /\
       waited n (pci_burst_write bw bus) bus_ready /\
       log o = EvBurstWrite bw :: repeat (EvSingleRead STATE_REG_0) n
                 ++ [EvBurstRead br] /\
       bus_after o = snd (pci_burst_read br bus_ready) /\
       ret o = fst (alloc_rslt pure_cmd) /\
       res_buf o =
         (set_rsltfrmt
            (mkBurst (count br) (addr_shift br)
                     (fst (pci_burst_read br bus_ready))) pure_cmd
            <$> snd (alloc_rslt pure_cmd)).
Proof.
  intros Hex pure_cmd. unfold execute_cmd in Hex. fold pure_cmd in Hex.
  destruct (alloc_rslt pure_cmd) as [rslt_size res].
  destruct (pure_cmd =? ADDS).
  { injection Hex as <-. left. split; reflexivity. }
  destruct (init_burst_w pure_cmd c) as [code|bw].
  { injection Hex as <-. left. split; reflexivity. }
  destruct (init_burst_r pure_cmd) as [code|br].
  { injection Hex as <-. left. split; reflexivity. }
  destruct (poll_ready fuel _ _) as [[bus1 log1]|] eqn:Hpoll; [| discriminate].
  apply poll_ready_waited in Hpoll as (n & Hn & Hw & ->).
  destruct (pci_burst_read br bus1) as [words bus2] eqn:Hread.
  injection Hex as <-. right. exists bw, br, n, bus1.
  rewrite Hread. simpl. repeat split; try reflexivity; try lia. exact Hw.
Qed.

(** X9.  The wait is the only thing that can keep a call from returning:
    when both bursts can be built and the device raises the ready flag at
    its [n]-th status read, the call returns for every bound of at least
    [n], with the size of the result format and a result of status [OK]. *)
Theorem execute_cmd_returns_when_ready fuel c bus bw br n bus_ready :
  let pure_cmd := Z.land (cb_cmd c) CMD_MASK in
  pure_cmd <> ADDS ->
  init_burst_w pure_cmd c = inr bw ->
  init_burst_r pure_cmd = inr br ->
  waited n (pci_burst_write bw bus) bus_ready ->
  (n <= fuel)%nat ->
  exists o r f,
    execute_cmd fuel c bus = Some o /\
    rsltfrmt_of pure_cmd = Some f /\ ret o = sizeof_rsltfrmt f /\
    res_buf o = Some r /\ rb_rslt r = OK /\
    bus_after o = snd (pci_burst_read br bus_ready).
Proof.
  intros pure_cmd Hne Hw Hr Hwait Hfuel.
  unfold execute_cmd. fold pure_cmd.
  destruct (Z.eqb_spec pure_cmd ADDS) as [Heq|_]; [contradiction |].
  rewrite Hw, Hr.
  rewrite (waited_poll_ready n _ _ Hwait fuel _ Hfuel).
  destruct (pci_burst_read br bus_ready) as [words bus2].
  unfold alloc_rslt. unfold init_burst_r in Hr.
  destruct (rsltfrmt_of pure_cmd) as [[| |]|] eqn:Hrf; try discriminate;
    simpl; do 3 eexists;
    (split; [destruct (pure_cmd =? ADDS) eqn:E; [apply Z.eqb_eq in E; contradiction | reflexivity] |]);
    simpl; (split; [reflexivity |]); (split; [reflexivity |]);
    (split; [reflexivity |]); (split; [| reflexivity]);
    rewrite set_rsltfrmt_status, Hrf; reflexivity.
Qed.

(** X26.  The wait has no time-out of its own: on a device whose status
    register never shows the ready flag, a command whose bursts can be built
    is still waiting after any number of status reads, however large. *)
Theorem execute_cmd_waits_forever fuel c bus bw br :
  let pure_cmd := Z.land (cb_cmd c) CMD_MASK in
  pure_cmd <> ADDS ->
  init_burst_w pure_cmd c = inr bw ->
  init_burst_r pure_cmd = inr br ->
  (forall b,
      Z.land (fst (pci_single_read STATE_REG_0 b))
             (Z.shiftl 1 SPU_READY_FLAG) = 0) ->
  execute_cmd fuel c bus = None.
Proof.
  intros pure_cmd Hne Hw Hr Hdead.
  assert (Hpoll : forall n b l, poll_ready n b l = None).
  { induction n as [|n IH]; intros b l; simpl; [reflexivity |].
    specialize (Hdead b).
    destruct (pci_single_read STATE_REG_0 b) as [state b1]. simpl in Hdead.
    rewrite Hdead. simpl. apply IH. }
  unfold execute_cmd. fold pure_cmd.
  destruct (alloc_rslt pure_cmd) as [rslt_size res].
  destruct (Z.eqb_spec pure_cmd ADDS) as [Heq|_]; [contradiction |].
  rewrite Hw, Hr, Hpoll. reflexivity.
Qed.



(** *** The loops over the key and value words in closed form *)

Lemma fold_set_word_length (body : Z -> list Z -> list Z) :
  (forall i a, length (body i a) = length a) ->
  forall l a, length (fold_left (fun a i => body i a) l a) = length a.
Proof.
  intros Hbody l. induction l as [|i l IH]; intros a; simpl; [reflexivity |].
  rewrite IH. apply Hbody.
Qed.

(** [for (i = 0; i < k; i++) a[i] = g(i);] *)
Lemma fold_set_lookup (g : Z -> Z) (k : nat) (a : list Z) (j : nat) :
  fold_left (fun a i => set_word a i (g i)) (seqZ 0 (Z.of_nat k)) a !! j =
    if decide (j < k /\ j < length a)%nat then Some (g (Z.of_nat j))
    else a !! j.
Proof.
  induction k as [|k IH].
  - cbn [Z.of_nat seqZ fold_left]. case_decide; [lia | reflexivity].
  - rewrite seqZ_S, fold_left_app. cbn [fold_left]. unfold set_word at 1.
    rewrite Z.add_0_l, Nat2Z.id, list_lookup_insert, IH.
    rewrite (fold_set_word_length (fun i a => set_word a i (g i)))
      by (intros; unfold set_word; apply length_insert).
    repeat case_decide; try reflexivity; try lia.
    destruct_and?; simplify_eq. reflexivity.
Qed.

(** [for (i = 0; i < k; i++) { a[i] = g(i); a[i+n] = h(i); }] *)
Lemma fold_set2_lookup (g h : Z -> Z) (n k : nat) (a : list Z) (j : nat) :
  (k <= n)%nat ->
  fold_left (fun a i => set_word (set_word a i (g i)) (i + Z.of_nat n) (h i))
            (seqZ 0 (Z.of_nat k)) a !! j =
    if decide (j < k /\ j < length a)%nat then Some (g (Z.of_nat j))
    else if decide (n <= j < n + k /\ j < length a)%nat
         then Some (h (Z.of_nat j - Z.of_nat n))
         else a !! j.
Proof.
  induction k as [|k IH]; intros Hk.
  - cbn [Z.of_nat seqZ fold_left].
    repeat case_decide; try reflexivity; lia.
  - rewrite seqZ_S, fold_left_app. cbn [fold_left]. unfold set_word at 1 2.
    rewrite Z.add_0_l.
    replace (Z.to_nat (Z.of_nat k + Z.of_nat n)) with (k + n)%nat by lia.
    rewrite Nat2Z.id. rewrite !list_lookup_insert. rewrite IH by lia.
    rewrite !length_insert.
    rewrite (fold_set_word_length
               (fun i a => set_word (set_word a i (g i))
                                    (i + Z.of_nat n) (h i)))
      by (intros; unfold set_word; rewrite !length_insert; reflexivity).
    repeat case_decide; try reflexivity; try lia;
      destruct_and?; simplify_eq; try reflexivity.
    f_equal. f_equal. lia.
Qed.

Lemma fmap_seqZ_nth (l : list Z) :
  (fun i => nth (Z.to_nat i) l 0) <$> seqZ 0 (Z.of_nat (length l)) = l.
Proof.
  apply list_eq. intros j. rewrite list_lookup_fmap.
  destruct (decide (j < length l)%nat) as [Hlt|Hge].
  - rewrite lookup_seqZ_lt by lia.
    destruct (lookup_lt_is_Some_2 l j Hlt) as [x Hx].
    rewrite Hx. cbn [fmap option_fmap option_map]. f_equal.
    rewrite Z.add_0_l, Nat2Z.id, nth_lookup, Hx. reflexivity.
  - rewrite lookup_seqZ_ge by lia. simpl. symmetry.
    apply lookup_ge_None. lia.
Qed.

(** Two regions of [n] words and a last word, written into a fresh array. *)
Lemma two_regions_closed (g h : Z -> Z) (n : nat) (last : Z) :
  set_word
    (fold_left (fun a i => set_word (set_word a i (g i)) (i + Z.of_nat n) (h i))
               (seqZ 0 (Z.of_nat n))
               (alloc_words (Z.of_nat n * 2 + 1)))
    (Z.of_nat n * 2 + 1 - 1) last
  = (g <$> seqZ 0 (Z.of_nat n)) ++ (h <$> seqZ 0 (Z.of_nat n)) ++ [last].
Proof.
  apply list_eq. intros j. unfold set_word at 1, alloc_words.
  replace (Z.to_nat (Z.of_nat n * 2 + 1 - 1)) with (2 * n)%nat by lia.
  replace (Z.to_nat (Z.of_nat n * 2 + 1)) with (2 * n + 1)%nat by lia.
  rewrite list_lookup_insert, fold_set2_lookup by lia.
  rewrite (fold_set_word_length
             (fun i a => set_word (set_word a i (g i)) (i + Z.of_nat n) (h i)))
    by (intros; unfold set_word; rewrite !length_insert; reflexivity).
  rewrite repeat_length.
  destruct (decide (j < n)%nat) as [H1|H1].
  - rewrite lookup_app_l by (rewrite length_fmap, length_seqZ; lia).
    rewrite list_lookup_fmap, lookup_seqZ_lt by lia. simpl.
    repeat case_decide; try lia. reflexivity.
  - rewrite lookup_app_r by (rewrite length_fmap, length_seqZ; lia).
    rewrite length_fmap, length_seqZ, Nat2Z.id.
    destruct (decide (j < 2 * n)%nat) as [H2|H2].
    + rewrite lookup_app_l by (rewrite length_fmap, length_seqZ; lia).
      rewrite list_lookup_fmap, lookup_seqZ_lt by lia. simpl.
      repeat case_decide; try lia. f_equal. f_equal. lia.
    + rewrite lookup_app_r by (rewrite length_fmap, length_seqZ; lia).
      rewrite length_fmap, length_seqZ, Nat2Z.id.
      destruct (decide (j = 2 * n)%nat) as [->|H3].
      * replace (2 * n - n - n)%nat with 0%nat by lia. simpl.
        repeat case_decide; try lia. reflexivity.
      * repeat case_decide; try lia.
        rewrite !(proj2 (lookup_ge_None _ _)); [reflexivity | |].
        -- simpl. lia.
        -- rewrite repeat_length. lia.
Qed.

(** One region of [n] words and a last word, written into a fresh array. *)
Lemma one_region_closed (g : Z -> Z) (n : nat) (last : Z) :
  set_word
    (fold_left (fun a i => set_word a i (g i)) (seqZ 0 (Z.of_nat n))
               (alloc_words (Z.of_nat n + 1)))
    (Z.of_nat n + 1 - 1) last
  = (g <$> seqZ 0 (Z.of_nat n)) ++ [last].
Proof.
  apply list_eq. intros j. unfold set_word at 1, alloc_words.
  replace (Z.to_nat (Z.of_nat n + 1 - 1)) with n by lia.
  replace (Z.to_nat (Z.of_nat n + 1)) with (n + 1)%nat by lia.
  rewrite list_lookup_insert, fold_set_lookup.
  rewrite (fold_set_word_length (fun i a => set_word a i (g i)))
    by (intros; unfold set_word; apply length_insert).
  rewrite repeat_length.
  destruct (decide (j < n)%nat) as [H1|H1].
  - rewrite lookup_app_l by (rewrite length_fmap, length_seqZ; lia).
    rewrite list_lookup_fmap, lookup_seqZ_lt by lia. simpl.
    repeat case_decide; try lia. reflexivity.
  - rewrite lookup_app_r by (rewrite length_fmap, length_seqZ; lia).
    rewrite length_fmap, length_seqZ, Nat2Z.id.
    destruct (decide (j = n)) as [->|H2].
    + replace (n - n)%nat with 0%nat by lia. simpl.
      repeat case_decide; try lia. reflexivity.
    + repeat case_decide; try lia.
      rewrite !(proj2 (lookup_ge_None _ _)); [reflexivity | |].
      * simpl. lia.
      * rewrite repeat_length. lia.
Qed.

(** One region of [n] words written over an array of [n] words. *)
Lemma whole_array_closed (g : Z -> Z) (a : list Z) :
  fold_left (fun a i => set_word a i (g i)) (seqZ 0 (Z.of_nat (length a))) a
  = g <$> seqZ 0 (Z.of_nat (length a)).
Proof.
  apply list_eq. intros j. rewrite fold_set_lookup, list_lookup_fmap.
  destruct (decide (j < length a)%nat) as [Hlt|Hge].
  - rewrite lookup_seqZ_lt by lia. simpl.
    case_decide; [reflexivity | lia].
  - rewrite lookup_seqZ_ge by lia. simpl.
    case_decide; [lia |]. apply lookup_ge_None. lia.
Qed.

Lemma for_weight_pair {A B : Type} (f : Z -> A -> A) (g : Z -> B -> B) a b :
  for_weight (fun i '(a, b) => (f i a, g i b)) (a, b) =
  (for_weight f a, for_weight g b).
Proof.
  unfold for_weight. generalize (seqZ 0 SPU_WEIGHT) as l. intros l.
  revert a b. induction l as [|i l IH]; intros a b; simpl; [reflexivity |].
  apply IH.
Qed.


Lemma two_regions_closed_Z (g h : Z -> Z) (W last : Z) :
  0 <= W ->
  set_word
    (fold_left (fun a i => set_word (set_word a i (g i)) (i + W) (h i))
               (seqZ 0 W) (alloc_words (W * 2 + 1)))
    (W * 2 + 1 - 1) last
  = (g <$> seqZ 0 W) ++ (h <$> seqZ 0 W) ++ [last].
Proof.
  intros HW. destruct (Z_of_nat_complete W HW) as [n ->].
  apply two_regions_closed.
Qed.

Lemma one_region_closed_Z (g : Z -> Z) (W last : Z) :
  0 <= W ->
  set_word
    (fold_left (fun a i => set_word a i (g i)) (seqZ 0 W)
               (alloc_words (W + 1)))
    (W + 1 - 1) last
  = (g <$> seqZ 0 W) ++ [last].
Proof.
  intros HW. destruct (Z_of_nat_complete W HW) as [n ->].
  apply one_region_closed.
Qed.

Lemma whole_array_closed_Z (g : Z -> Z) (a : list Z) (W : Z) :
  Z.of_nat (length a) = W ->
  fold_left (fun a i => set_word a i (g i)) (seqZ 0 W) a = g <$> seqZ 0 W.
Proof. intros <-. apply whole_array_closed. Qed.

Lemma fmap_seqZ_nth_Z (l : list Z) (W : Z) :
  Z.of_nat (length l) = W ->
  (fun i => nth (Z.to_nat i) l 0) <$> seqZ 0 W = l.
Proof. intros <-. apply fmap_seqZ_nth. Qed.

Lemma for_weight_pair_ext {A B : Type} (body : Z -> A * B -> A * B)
      (f : Z -> A -> A) (g : Z -> B -> B) a b :
  (forall i a b, body i (a, b) = (f i a, g i b)) ->
  for_weight body (a, b) = (for_weight f a, for_weight g b).
Proof.
  intros Hbody. rewrite <- for_weight_pair. unfold for_weight.
  generalize (seqZ 0 SPU_WEIGHT) as l. intros l. generalize (a, b) as s.
  induction l as [|i l IH]; intros s; simpl; [reflexivity |].
  destruct s as [a' b']. rewrite Hbody. apply IH.
Qed.

(** The register offsets of the key words and of the value words. *)
Definition key_regs : list Z := (fun i => KEY_REG + i) <$> seqZ 0 SPU_WEIGHT.
Definition val_regs : list Z := (fun i => VAL_REG + i) <$> seqZ 0 SPU_WEIGHT.

(** *** The bursts in closed form *)

(** X11.  The write burst of a format-1 command (identifier, key, value)
    whose identifier resolves: [2 * SPU_WEIGHT + 1] words, the key words to
    [KEY_REG], [KEY_REG + 1], ..., then the value words to [VAL_REG],
    [VAL_REG + 1], ..., and last the command word, the shifted command ORed
    with the structure number, to [CMD_REG]. *)
Theorem init_burst_w_format_1 cmd c :
  cmdfrmt_of cmd = Some CMDFRMT_1 ->
  0 < resolve_gsid (cb_gsid c) cmd ->
  0 <= SPU_WEIGHT -> SPU_WEIGHT * 2 + 1 < 256 ->
  Z.of_nat (length (cb_key c)) = SPU_WEIGHT ->
  Z.of_nat (length (cb_val c)) = SPU_WEIGHT ->
  init_burst_w cmd c =
    inr (mkBurst (SPU_WEIGHT * 2 + 1)
           (key_regs ++ val_regs ++ [CMD_REG])
           (cb_key c ++ cb_val c ++
            [wrap32 (Z.lor (CMD_SHIFT (cb_cmd c))
                           (resolve_gsid (cb_gsid c) cmd))])).
Proof.
  intros Hfmt Hres HW0 HW Hkey Hval.
  unfold init_burst_w, init_burst_w_resolve. rewrite Hfmt.
  destruct (Z.leb_spec (resolve_gsid (cb_gsid c) cmd) 0) as [Hle|_]; [lia |].
  unfold wrap8. rewrite Z.mod_small by lia.
  rewrite (for_weight_pair_ext _
             (fun i addr => set_word (set_word addr i (KEY_REG + i))
                                     (i + SPU_WEIGHT) (VAL_REG + i))
             (fun i dat => set_word (set_word dat i
                                       (nth (Z.to_nat i) (cb_key c) 0))
                                    (i + SPU_WEIGHT)
                                    (nth (Z.to_nat i) (cb_val c) 0)))
    by (intros; reflexivity).
  unfold for_weight, key_regs, val_regs.
  rewrite !two_regions_closed_Z by exact HW0.
  rewrite (fmap_seqZ_nth_Z (cb_key c)), (fmap_seqZ_nth_Z (cb_val c))
    by assumption.
  reflexivity.
Qed.

(** X12.  The write burst of a format-2 command (identifier, key) whose
    identifier resolves: [SPU_WEIGHT + 1] words, the key words to [KEY_REG],
    [KEY_REG + 1], ..., then the command word to [CMD_REG]. *)
Theorem init_burst_w_format_2 cmd c :
  cmdfrmt_of cmd = Some CMDFRMT_2 ->
  0 < resolve_gsid (cb_gsid c) cmd ->
  0 <= SPU_WEIGHT -> SPU_WEIGHT + 1 < 256 ->
  Z.of_nat (length (cb_key c)) = SPU_WEIGHT ->
  init_burst_w cmd c =
    inr (mkBurst (SPU_WEIGHT + 1)
           (key_regs ++ [CMD_REG])
           (cb_key c ++
            [wrap32 (Z.lor (CMD_SHIFT (cb_cmd c))
                           (resolve_gsid (cb_gsid c) cmd))])).
Proof.
  intros Hfmt Hres HW0 HW Hkey.
  unfold init_burst_w, init_burst_w_resolve. rewrite Hfmt.
  destruct (Z.leb_spec (resolve_gsid (cb_gsid c) cmd) 0) as [Hle|_]; [lia |].
  unfold wrap8. rewrite Z.mod_small by lia.
  rewrite (for_weight_pair_ext _
             (fun i addr => set_word addr i (KEY_REG + i))
             (fun i dat => set_word dat i (nth (Z.to_nat i) (cb_key c) 0)))
    by (intros; reflexivity).
  unfold for_weight, key_regs.
  rewrite !one_region_closed_Z by exact HW0.
  rewrite (fmap_seqZ_nth_Z (cb_key c)) by assumption.
  reflexivity.
Qed.

(** The write burst of a command without key is the single command
    word to [CMD_REG]: for format 3 the shifted command ORed with the
    structure number, for format 4 (when A and B resolve) the shifted
    command ORed with the three shifted structure numbers. *)
Lemma init_burst_w_command_word cmd c :
  (cmdfrmt_of cmd = Some CMDFRMT_3 ->
   0 < resolve_gsid (cb_gsid c) cmd ->
   init_burst_w cmd c =
     inr (mkBurst 1 [CMD_REG]
            [wrap32 (Z.lor (CMD_SHIFT (cb_cmd c))
                           (resolve_gsid (cb_gsid c) cmd))]))
  /\ (cmdfrmt_of cmd = Some CMDFRMT_4 ->
      0 < resolve_gsid (cb_gsid_a c) cmd ->
      0 < resolve_gsid (cb_gsid_b c) cmd ->
      init_burst_w cmd c =
        inr (mkBurst 1 [CMD_REG]
               [wrap32
                  (Z.lor (Z.lor (Z.lor (CMD_SHIFT (cb_cmd c))
                                   (STR_A_SHIFT (resolve_gsid (cb_gsid_a c) cmd)))
                            (STR_B_SHIFT (resolve_gsid (cb_gsid_b c) cmd)))
                     (STR_R_SHIFT (resolve_gsid (cb_gsid_r c) cmd)))])).
Proof.
  split.
  - intros Hfmt Hres. unfold init_burst_w, init_burst_w_resolve.
    rewrite Hfmt.
    destruct (Z.leb_spec (resolve_gsid (cb_gsid c) cmd) 0); [lia |].
    reflexivity.
  - intros Hfmt Ha Hb. unfold init_burst_w, init_burst_w_resolve.
    rewrite Hfmt.
    destruct (Z.leb_spec (resolve_gsid (cb_gsid_a c) cmd) 0); [lia |].
    destruct (Z.leb_spec (resolve_gsid (cb_gsid_b c) cmd) 0); [lia |].
    reflexivity.
Qed.

(** X13.  The read burst: for result format 1 the single POWER register;
    for result format 2 the key registers, then the value registers, then
    the POWER register, [2 * SPU_WEIGHT + 1] words in all; for any other
    command [-ENOEXEC]. *)
Theorem init_burst_r_layout cmd :
  0 <= SPU_WEIGHT -> SPU_WEIGHT * 2 + 1 < 256 ->
  match rsltfrmt_of cmd with
  | Some RSLTFRMT_1 =>
      exists b, init_burst_r cmd = inr b /\
                count b = 1 /\ addr_shift b = [POWER_REG]
  | Some RSLTFRMT_2 =>
      exists b, init_burst_r cmd = inr b /\
                count b = SPU_WEIGHT * 2 + 1 /\
                addr_shift b = key_regs ++ val_regs ++ [POWER_REG]
  | _ => init_burst_r cmd = inl (- ENOEXEC)
  end.
Proof.
  intros HW0 HW. unfold init_burst_r.
  destruct (rsltfrmt_of cmd) as [[| |]|]; try reflexivity.
  - eexists. split; [reflexivity |]. split; reflexivity.
  - eexists. split; [reflexivity |]. simpl.
    unfold wrap8. rewrite Z.mod_small by lia. split; [reflexivity |].
    unfold for_weight, key_regs, val_regs.
    apply two_regions_closed_Z, HW0.
Qed.

Lemma word_at_in_range (a : list Z) (j : nat) :
  (j < length a)%nat -> Some (word_at a (Z.of_nat j)) = a !! j.
Proof.
  intros Hj. unfold word_at.
  destruct (Z.leb_spec 0 (Z.of_nat j)); [| lia].
  destruct (Z.ltb_spec (Z.of_nat j) (Z.of_nat (length a))); [| lia].
  simpl. rewrite Nat2Z.id, nth_lookup.
  destruct (lookup_lt_is_Some_2 a j Hj) as [x ->]. reflexivity.
Qed.

(** X14.  Decoding a format-2 result takes the key from the first
    [SPU_WEIGHT] words read back and the value from the next [SPU_WEIGHT]
    words, and leaves the identifier field alone. *)
Theorem set_rsltfrmt_format_2 b cmd res :
  rsltfrmt_of cmd = Some RSLTFRMT_2 ->
  Z.of_nat (length (rb_key res)) = SPU_WEIGHT ->
  Z.of_nat (length (rb_val res)) = SPU_WEIGHT ->
  SPU_WEIGHT * 2 <= Z.of_nat (length (data b)) ->
  rb_key (set_rsltfrmt b cmd res) = take (Z.to_nat SPU_WEIGHT) (data b)
  /\ rb_val (set_rsltfrmt b cmd res) =
       take (Z.to_nat SPU_WEIGHT) (drop (Z.to_nat SPU_WEIGHT) (data b))
  /\ rb_gsid (set_rsltfrmt b cmd res) = rb_gsid res.
Proof.
  intros Hfmt Hkey Hval Hdata. unfold set_rsltfrmt. rewrite Hfmt.
  rewrite (for_weight_pair
             (fun i key => set_word key i (word_at (data b) i))
             (fun i val => set_word val i (word_at (data b) (i + SPU_WEIGHT)))).
  simpl. unfold for_weight.
  rewrite !whole_array_closed_Z by assumption.
  split; [| split]; [| | reflexivity].
  - apply list_eq. intros j. rewrite list_lookup_fmap.
    destruct (decide (j < Z.to_nat SPU_WEIGHT)%nat) as [Hlt|Hge].
    + rewrite lookup_seqZ_lt, lookup_take_lt by lia.
      cbn [fmap option_fmap option_map]. rewrite Z.add_0_l.
      apply word_at_in_range. lia.
    + rewrite lookup_seqZ_ge, lookup_take_ge by lia. reflexivity.
  - apply list_eq. intros j. rewrite list_lookup_fmap.
    destruct (decide (j < Z.to_nat SPU_WEIGHT)%nat) as [Hlt|Hge].
    + rewrite lookup_seqZ_lt, lookup_take_lt, lookup_drop by lia.
      cbn [fmap option_fmap option_map]. rewrite Z.add_0_l.
      replace (Z.of_nat j + SPU_WEIGHT)
        with (Z.of_nat (Z.to_nat SPU_WEIGHT + j)) by lia.
      apply word_at_in_range. lia.
    + rewrite lookup_seqZ_ge, lookup_take_ge by lia. reflexivity.
Qed.


End CmdExec.

Arguments mkCmd {gsid_t} _ _ _ _ _ _ _.
Arguments cb_cmd {gsid_t} _.
Arguments cb_gsid {gsid_t} _.
Arguments cb_gsid_a {gsid_t} _.
Arguments cb_gsid_b {gsid_t} _.
Arguments cb_gsid_r {gsid_t} _.
Arguments cb_key {gsid_t} _.
Arguments cb_val {gsid_t} _.
Arguments mkRslt {gsid_t} _ _ _ _ _.
Arguments rb_rslt {gsid_t} _.
Arguments rb_gsid {gsid_t} _.
Arguments rb_key {gsid_t} _.
Arguments rb_val {gsid_t} _.
Arguments rb_power {gsid_t} _.
Arguments mkOutcome {gsid_t Bus} _ _ _ _.
Arguments ret {gsid_t Bus} _.
Arguments res_buf {gsid_t Bus} _.
Arguments log {gsid_t Bus} _.
Arguments bus_after {gsid_t Bus} _.

End Driver.

(** ** An instance of the executor's parameters *)

Module DriverInstance.
Import Driver.

(** Modelled from the spec: [spu.h] with its opcodes, case labels and
    register offsets is not among the sources.  The instance follows the
    design document's tables: creation has no payload and the identifier
    result; insertion carries identifier, key and value; deletion and search
    carry identifier and key; destruction, minimum and maximum carry the
    identifier only; the structure-to-structure operations carry two or three
    identifiers.  Key-returning queries have result format 2, the other
    commands format 1.  The numbers themselves are placeholders. *)
Definition ADDS : Z := 0x01.
Definition DELS : Z := 0x02.
Definition INS : Z := 0x03.
Definition DEL : Z := 0x04.
Definition SRCH : Z := 0x05.
Definition MIN : Z := 0x06.
Definition MAX : Z := 0x07.
Definition AND : Z := 0x10.
Definition NOT : Z := 0x11.
Definition CMD_MASK : Z := 0x3F.

Definition cmdfrmt_of (cmd : Z) : option cmd_format :=
  if cmd =? ADDS then Some CMDFRMT_0
  else if cmd =? INS then Some CMDFRMT_1
  else if (cmd =? DEL) || (cmd =? SRCH) then Some CMDFRMT_2
  else if (cmd =? DELS) || (cmd =? MIN) || (cmd =? MAX) then Some CMDFRMT_3
  else if cmd =? AND then Some CMDFRMT_4
  else if cmd =? NOT then Some CMDFRMT_5
  else None.

Definition rsltfrmt_of (cmd : Z) : option rslt_format :=
  if cmd =? ADDS then Some RSLTFRMT_0
  else if (cmd =? SRCH) || (cmd =? MIN) || (cmd =? MAX) then Some RSLTFRMT_2
  else if (cmd =? DELS) || (cmd =? INS) || (cmd =? DEL) || (cmd =? AND)
          || (cmd =? NOT) then Some RSLTFRMT_1
  else None.

Definition sizeof_rsltfrmt (f : rslt_format) : Z :=
  match f with RSLTFRMT_0 => 12 | RSLTFRMT_1 => 8 | RSLTFRMT_2 => 24 end.

Definition SPU_WEIGHT : Z := 2.
Definition CMD_REG : Z := 0.
Definition KEY_REG : Z := 8.
Definition VAL_REG : Z := 16.
Definition POWER_REG : Z := 24.
Definition STATE_REG_0 : Z := 32.
Definition SPU_READY_FLAG : Z := 0.

(** The command word: opcode in the low byte, structure numbers above it. *)
Definition CMD_SHIFT (x : Z) : Z := x.
Definition STR_A_SHIFT (x : Z) : Z := Z.shiftl x 8.
Definition STR_B_SHIFT (x : Z) : Z := Z.shiftl x 16.
Definition STR_R_SHIFT (x : Z) : Z := Z.shiftl x 24.

(** Identifiers are numbers; the positive ones are known and resolve to
    themselves. *)
Definition resolve_gsid (gsid cmd : Z) : Z := if 0 <? gsid then gsid else -1.
Definition create_gsid : Z * Z := (0, 5).

(** A device that is ready at once and whose POWER register holds the
    number that is the device state; every other register reads 0. *)
Definition pci_burst_write (b : pci_burst) (power : Z) : Z := power.
Definition pci_single_read (reg power : Z) : Z * Z := (1, power).
Definition pci_burst_read (b : pci_burst) (power : Z) : list Z * Z :=
  (map (fun a => if a =? POWER_REG then power else 0) (addr_shift b), power).

Definition stray (offset : Z) : Z := 7.
Definition fresh_rslt : rslt_buf_t Z := mkRslt ERR 0 [0; 0] [0; 0] 0.

Definition execute_cmd :=
  Driver.execute_cmd Z SPU_WEIGHT KEY_REG VAL_REG CMD_REG POWER_REG
    STATE_REG_0 SPU_READY_FLAG CMD_MASK ADDS cmdfrmt_of rsltfrmt_of
    sizeof_rsltfrmt CMD_SHIFT STR_A_SHIFT STR_B_SHIFT STR_R_SHIFT
    resolve_gsid create_gsid Z pci_burst_write pci_single_read
    pci_burst_read stray 0 fresh_rslt.

Definition set_rsltfrmt :=
  Driver.set_rsltfrmt Z SPU_WEIGHT rsltfrmt_of stray.

(** [DELS] on structure 3 while the POWER register holds 42. *)
Definition dels_cmd : cmd_buf_t Z := mkCmd DELS 3 0 0 0 [] [].

(** A three-identifier command whose result identifier is unknown. *)
Definition and_cmd : cmd_buf_t Z := mkCmd AND 0 3 4 0 [] [].

(** The device's POWER register holds 42, the read burst brings 42 back as
    its only word, and the decoded power is the stray word 7. *)
Example execute_cmd_dels_power :
  exists o r,
    execute_cmd 1 dels_cmd 42 = Some o /\
    log o = [EvBurstWrite (mkBurst 1 [CMD_REG] [Z.lor DELS 3]);
             EvSingleRead STATE_REG_0;
             EvBurstRead (mkBurst 1 [POWER_REG] [0])] /\
    res_buf o = Some r /\ rb_rslt r = OK /\ rb_power r = 7.
Proof. do 2 eexists. repeat split. Qed.

Lemma execute_cmd_unresolved_r_reaches_bus_witness :
  exists o,
    execute_cmd 1 and_cmd 42 = Some o /\
    resolve_gsid (cb_gsid_r and_cmd) AND <= 0 /\
    existsb is_burst_write (log o) = true /\
    ret o = 8.
Proof.
  eexists. split; [reflexivity |]. split; [vm_compute; discriminate |].
  apply (execute_cmd_unresolved_r_reaches_bus Z SPU_WEIGHT KEY_REG VAL_REG
           CMD_REG POWER_REG STATE_REG_0 SPU_READY_FLAG CMD_MASK ADDS
           cmdfrmt_of rsltfrmt_of sizeof_rsltfrmt CMD_SHIFT STR_A_SHIFT
           STR_B_SHIFT STR_R_SHIFT resolve_gsid create_gsid Z pci_burst_write
           pci_single_read pci_burst_read stray 0 fresh_rslt 1 and_cmd 42).
  - vm_compute. discriminate.
  - reflexivity.
  - reflexivity.
  - reflexivity.
  - vm_compute. discriminate.
  - left. reflexivity.
  - reflexivity.
Defined.

Lemma decoded_status_always_ok_witness :
  rsltfrmt_of DELS = Some RSLTFRMT_1 /\
  rb_rslt (set_rsltfrmt (mkBurst 1 [POWER_REG] [42]) DELS fresh_rslt) = OK /\
  exists o r,
    execute_cmd 1 dels_cmd 42 = Some o /\
    existsb is_burst_read (log o) = true /\
    res_buf o = Some r /\ rb_rslt r = OK.
Proof.
  pose proof (decoded_status_always_ok Z SPU_WEIGHT KEY_REG VAL_REG
           CMD_REG POWER_REG STATE_REG_0 SPU_READY_FLAG CMD_MASK ADDS
           cmdfrmt_of rsltfrmt_of sizeof_rsltfrmt CMD_SHIFT STR_A_SHIFT
           STR_B_SHIFT STR_R_SHIFT resolve_gsid create_gsid Z pci_burst_write
           pci_single_read pci_burst_read stray 0 fresh_rslt)
    as (Hdec & _ & Hrun).
  split; [reflexivity |]. split.
  - apply Hdec. left. reflexivity.
  - destruct (execute_cmd 1 dels_cmd 42) as [o|] eqn:Hex;
      [| vm_compute in Hex; discriminate].
    assert (Hread : existsb is_burst_read (log o) = true).
    { vm_compute in Hex. injection Hex as <-. reflexivity. }
    destruct (Hrun 1%nat dels_cmd 42 o Hex Hread) as (_ & r & Hr & Hok).
    exists o, r. repeat split; assumption.
Defined.

End DriverInstance.

(** ** The executor's bursts and protocol on the instance *)

Module DriverWitnesses.
Import Driver DriverInstance.

Local Abbreviation at_instance thm :=
  (thm Z SPU_WEIGHT KEY_REG VAL_REG CMD_REG POWER_REG STATE_REG_0
       SPU_READY_FLAG CMD_MASK ADDS cmdfrmt_of rsltfrmt_of sizeof_rsltfrmt
       CMD_SHIFT STR_A_SHIFT STR_B_SHIFT STR_R_SHIFT resolve_gsid create_gsid
       Z pci_burst_write pci_single_read pci_burst_read stray 0 fresh_rslt)
  (only parsing).

Local Abbreviation at_burst_w thm :=
  (thm Z SPU_WEIGHT KEY_REG VAL_REG CMD_REG cmdfrmt_of CMD_SHIFT STR_A_SHIFT
       STR_B_SHIFT STR_R_SHIFT resolve_gsid 0)
  (only parsing).

Definition init_burst_w :=
  Driver.init_burst_w Z SPU_WEIGHT KEY_REG VAL_REG CMD_REG cmdfrmt_of
    CMD_SHIFT STR_A_SHIFT STR_B_SHIFT STR_R_SHIFT resolve_gsid 0.

Definition init_burst_r :=
  Driver.init_burst_r SPU_WEIGHT KEY_REG VAL_REG POWER_REG rsltfrmt_of.

Definition ins_cmd : cmd_buf_t Z := mkCmd INS 3 0 0 0 [0xA; 0xB] [0xC; 0xD].
Definition del_cmd : cmd_buf_t Z := mkCmd DEL 3 0 0 0 [0xA; 0xB] [].



Lemma execute_cmd_bus_protocol_witness :
  exists o bw br n,
    execute_cmd 1 dels_cmd 42 = Some o /\
    (1 <= n <= 1)%nat /\
    log o = EvBurstWrite bw :: repeat (EvSingleRead STATE_REG_0) n
              ++ [EvBurstRead br].
Proof.
  destruct (execute_cmd 1 dels_cmd 42) as [o|] eqn:Hex;
    [| vm_compute in Hex; discriminate].
  destruct (at_instance execute_cmd_bus_protocol 1%nat dels_cmd 42 o Hex)
    as [[Hlog _] | (bw & br & n & ready & _ & _ & Hn & _ & Hlog & _)].
  - vm_compute in Hex. injection Hex as <-. discriminate.
  - exists o, bw, br, n. repeat split; try assumption; lia.
Defined.

Lemma execute_cmd_returns_when_ready_witness :
  exists o r,
    execute_cmd 5 dels_cmd 42 = Some o /\
    ret o = 8 /\ res_buf o = Some r /\ rb_rslt r = OK.
Proof.
  assert (Hne : Z.land (cb_cmd dels_cmd) CMD_MASK <> ADDS)
    by (vm_compute; discriminate).
  assert (Hw : init_burst_w (Z.land (cb_cmd dels_cmd) CMD_MASK) dels_cmd
               = inr (mkBurst 1 [CMD_REG] [Z.lor DELS 3])) by reflexivity.
  assert (Hr : init_burst_r (Z.land (cb_cmd dels_cmd) CMD_MASK)
               = inr (mkBurst 1 [POWER_REG] [0])) by reflexivity.
  assert (Hwait : waited STATE_REG_0 SPU_READY_FLAG Z pci_single_read 1
                    (pci_burst_write (mkBurst 1 [CMD_REG] [Z.lor DELS 3]) 42)
                    42).
  { apply (waited_ready _ _ _ _ _ 1 42); [reflexivity |].
    vm_compute. discriminate. }
  destruct (at_instance execute_cmd_returns_when_ready 5%nat dels_cmd 42
              _ _ 1%nat 42 Hne Hw Hr Hwait ltac:(lia))
    as (o & r & f & Hex & Hf & Hret & Hres & Hok & _).
  exists o, r. repeat split; try assumption.
  vm_compute in Hf. injection Hf as <-. exact Hret.
Defined.


Lemma init_burst_w_format_1_witness :
  init_burst_w INS ins_cmd =
    inr (mkBurst 5 [KEY_REG; KEY_REG + 1; VAL_REG; VAL_REG + 1; CMD_REG]
                   [0xA; 0xB; 0xC; 0xD; Z.lor INS 3]).
Proof.
  apply (at_burst_w init_burst_w_format_1 INS ins_cmd);
    first [reflexivity | vm_compute; discriminate].
Defined.

Lemma init_burst_w_format_2_witness :
  init_burst_w DEL del_cmd =
    inr (mkBurst 3 [KEY_REG; KEY_REG + 1; CMD_REG] [0xA; 0xB; Z.lor DEL 3]).
Proof.
  apply (at_burst_w init_burst_w_format_2 DEL del_cmd);
    first [reflexivity | vm_compute; discriminate].
Defined.

Lemma init_burst_r_layout_witness :
  exists b,
    init_burst_r SRCH = inr b /\ count b = 5 /\
    addr_shift b = [KEY_REG; KEY_REG + 1; VAL_REG; VAL_REG + 1; POWER_REG].
Proof.
  assert (H0 : 0 <= SPU_WEIGHT) by (vm_compute; discriminate).
  assert (H1 : SPU_WEIGHT * 2 + 1 < 256) by reflexivity.
  exact (init_burst_r_layout SPU_WEIGHT KEY_REG VAL_REG POWER_REG
           rsltfrmt_of SRCH H0 H1).
Defined.

Lemma set_rsltfrmt_format_2_witness :
  rb_key (set_rsltfrmt (mkBurst 5 [] [1; 2; 3; 4; 9]) SRCH fresh_rslt) = [1; 2]
  /\ rb_val (set_rsltfrmt (mkBurst 5 [] [1; 2; 3; 4; 9]) SRCH fresh_rslt)
       = [3; 4]
  /\ rb_gsid (set_rsltfrmt (mkBurst 5 [] [1; 2; 3; 4; 9]) SRCH fresh_rslt)
       = 0.
Proof.
  apply (set_rsltfrmt_format_2 Z SPU_WEIGHT rsltfrmt_of stray
           (mkBurst 5 [] [1; 2; 3; 4; 9]) SRCH fresh_rslt);
    first [reflexivity | vm_compute; discriminate].
Defined.

(** A device whose status register always reads 0. *)
Definition dead_single_read (reg power : Z) : Z * Z := (0, power).

Lemma execute_cmd_waits_forever_witness :
  Driver.execute_cmd Z SPU_WEIGHT KEY_REG VAL_REG CMD_REG POWER_REG
    STATE_REG_0 SPU_READY_FLAG CMD_MASK ADDS cmdfrmt_of rsltfrmt_of
    sizeof_rsltfrmt CMD_SHIFT STR_A_SHIFT STR_B_SHIFT STR_R_SHIFT
    resolve_gsid create_gsid Z pci_burst_write dead_single_read
    pci_burst_read stray 0 fresh_rslt 1000 dels_cmd 42 = None.
Proof.
  apply (Driver.execute_cmd_waits_forever Z SPU_WEIGHT KEY_REG VAL_REG
           CMD_REG POWER_REG STATE_REG_0 SPU_READY_FLAG CMD_MASK ADDS
           cmdfrmt_of rsltfrmt_of sizeof_rsltfrmt CMD_SHIFT STR_A_SHIFT
           STR_B_SHIFT STR_R_SHIFT resolve_gsid create_gsid Z
           pci_burst_write dead_single_read pci_burst_read stray 0
           fresh_rslt 1000%nat dels_cmd 42
           (mkBurst 1 [CMD_REG] [Z.lor DELS 3]) (mkBurst 1 [POWER_REG] [0])).
  - vm_compute. discriminate.
  - reflexivity.
  - reflexivity.
  - intros b. reflexivity.
Defined.

End DriverWitnesses.

(** ** [libspu/base_structure.hpp] *)

Module Facade.
Section BaseStructure.

(** *** What [libspu.hpp], [spu.h] and [fileops.hpp] provide *)

Variables gsid_t key_t value_t : Type.
Variables ADDS DELS INS DEL SRCH MIN MAX NEXT PREV NSM NGR : Z.
Variables P_FLAG NO_FLAGS : Z.

(** The command structs ([adds_cmd_t], [ins_cmd_t], [del_cmd_t], ...), by
    the fields that the designated initialisers of the class set. *)
Inductive command :=
| cmd_only (cmd : Z)
| cmd_gsid (cmd : Z) (gsid : gsid_t)
| cmd_gsid_key (cmd : Z) (gsid : gsid_t) (key : key_t)
| cmd_gsid_key_val (cmd : Z) (gsid : gsid_t) (key : key_t) (val : value_t).

(** [adds_rslt_t] *)
Record rslt_gsid := mkRsltGsid {
  rg_rslt : status_t;
  rg_gsid : gsid_t
}.

(** [dels_rslt_t], [ins_rslt_t], [del_rslt_t] *)
Record rslt_power := mkRsltPower {
  rp_rslt : status_t;
  rp_power : Z
}.

(** [srch_rslt_t], [min_rslt_t], [max_rslt_t], [next_rslt_t], ... *)
Record rslt_pair := mkRsltPair {
  rk_rslt : status_t;
  rk_key : key_t;
  rk_val : value_t;
  rk_power : Z
}.

(** [pair_t], built by the class as [{ result.key, result.val, result.rslt }]. *)
Record pair_t := mkPair {
  p_key : key_t;
  p_value : value_t;
  p_status : status_t
}.

(** [Fileops::execute<cmd_t, rslt_t>]: hands a command to the device file
    and brings back the result struct; [World] is everything behind the
    file.  One function per shape of result. *)
Variable World : Type.
Variable execute_gsid : command -> World -> rslt_gsid * World.
Variable execute_power : command -> World -> rslt_power * World.
Variable execute_pair : command -> World -> rslt_pair * World.

(** The conversion to [cmd_t], an 8-bit command code. *)
Definition to_cmd_t (x : Z) : Z := wrap8 x.

(** The data members of the class: [gsid] and [power]. *)
Record BaseStructure_t := mkBase {
  gsid : gsid_t;
  power : Z
}.

Inductive CouldNotCreateStructure := could_not_create_structure.

(** [BaseStructure::BaseStructure()]: [power(0)], then ADDS; the exception
    when the result is not [OK]. *)
Definition BaseStructure (w : World)
  : (CouldNotCreateStructure + BaseStructure_t) * World :=
  let power := 0 in
  let adds := cmd_only (to_cmd_t (Z.lor ADDS P_FLAG)) in
  let '(result, w) := execute_gsid adds w in
  if decide (rg_rslt result = OK)
  then (inr (mkBase (rg_gsid result) power), w)
  else (inl could_not_create_structure, w).

Definition dels_cmd (s : BaseStructure_t) : command :=
  cmd_gsid (to_cmd_t (Z.lor DELS P_FLAG)) (gsid s).

(** [BaseStructure::~BaseStructure()]: the object as the body leaves it. *)
Definition destroy (s : BaseStructure_t) (w : World)
  : BaseStructure_t * World :=
  let '(result, w) := execute_power (dels_cmd s) w in
  (mkBase (gsid s) (rp_power result), w).

(** [u32 BaseStructure::get_power()] *)
Definition get_power (s : BaseStructure_t) : Z := power s.

Definition ins_cmd (s : BaseStructure_t) (key : key_t) (value : value_t)
           (flags : Z) : command :=
  cmd_gsid_key_val (to_cmd_t (Z.lor INS flags)) (gsid s) key value.

(** [status_t BaseStructure::insert(key_t, value_t, flags_t)] *)
Definition insert (key : key_t) (value : value_t) (flags : Z)
           (s : BaseStructure_t) (w : World)
  : status_t * BaseStructure_t * World :=
  let '(result, w) := execute_power (ins_cmd s key value flags) w in
  (rp_rslt result, mkBase (gsid s) (rp_power result), w).

(** [struct InsertStruct { key_t key; value_t value; }] *)
Record InsertStruct := mkInsert {
  is_key : key_t;
  is_value : value_t
}.

(** [status_t BaseStructure::insert(InsertVector, flags_t)] *)
Fixpoint insert_vector (entries : list InsertStruct) (flags : Z)
         (s : BaseStructure_t) (w : World)
  : status_t * BaseStructure_t * World :=
  match entries with
  | [] => (OK, s, w)
  | ex :: rest =>
      let '(status, s, w) := insert (is_key ex) (is_value ex) flags s w in
      if decide (status <> OK) then (status, s, w)
      else insert_vector rest flags s w
  end.

Definition del_cmd (s : BaseStructure_t) (key : key_t) (flags : Z)
  : command :=
  cmd_gsid_key (to_cmd_t (Z.lor DEL flags)) (gsid s) key.

(** [status_t BaseStructure::del(key_t, flags_t)] *)
Definition del (key : key_t) (flags : Z) (s : BaseStructure_t) (w : World)
  : status_t * BaseStructure_t * World :=
  let '(result, w) := execute_power (del_cmd s key flags) w in
  (rp_rslt result, mkBase (gsid s) (rp_power result), w).

Definition srch_cmd (s : BaseStructure_t) (key : key_t) (flags : Z)
  : command :=
  cmd_gsid_key (to_cmd_t (Z.lor SRCH flags)) (gsid s) key.

(** [pair_t BaseStructure::search(key_t, flags_t)] *)
Definition search (key : key_t) (flags : Z) (s : BaseStructure_t) (w : World)
  : pair_t * BaseStructure_t * World :=
  let '(result, w) := execute_pair (srch_cmd s key flags) w in
  (mkPair (rk_key result) (rk_val result) (rk_rslt result),
   mkBase (gsid s) (rk_power result), w).

Definition min_cmd (s : BaseStructure_t) (flags : Z) : command :=
  cmd_gsid (to_cmd_t (Z.lor MIN flags)) (gsid s).

(** [pair_t BaseStructure::min(flags_t)] *)
Definition min (flags : Z) (s : BaseStructure_t) (w : World)
  : pair_t * BaseStructure_t * World :=
  let '(result, w) := execute_pair (min_cmd s flags) w in
  (mkPair (rk_key result) (rk_val result) (rk_rslt result),
   mkBase (gsid s) (rk_power result), w).

Definition max_cmd (s : BaseStructure_t) (flags : Z) : command :=
  cmd_gsid (to_cmd_t (Z.lor MAX flags)) (gsid s).

(** [pair_t BaseStructure::max(flags_t)] *)
Definition max (flags : Z) (s : BaseStructure_t) (w : World)
  : pair_t * BaseStructure_t * World :=
  let '(result, w) := execute_pair (max_cmd s flags) w in
  (mkPair (rk_key result) (rk_val result) (rk_rslt result),
   mkBase (gsid s) (rk_power result), w).

Definition next_cmd (s : BaseStructure_t) (key : key_t) (flags : Z)
  : command :=
  cmd_gsid_key (to_cmd_t (Z.lor NEXT flags)) (gsid s) key.

(** [pair_t BaseStructure::next(key_t, flags_t)] *)
Definition next (key : key_t) (flags : Z) (s : BaseStructure_t) (w : World)
  : pair_t * BaseStructure_t * World :=
  let '(result, w) := execute_pair (next_cmd s key flags) w in
  (mkPair (rk_key result) (rk_val result) (rk_rslt result),
   mkBase (gsid s) (rk_power result), w).

Definition prev_cmd (s : BaseStructure_t) (key : key_t) (flags : Z)
  : command :=
  cmd_gsid_key (to_cmd_t (Z.lor PREV flags)) (gsid s) key.

(** [pair_t BaseStructure::prev(key_t, flags_t)] *)
Definition prev (key : key_t) (flags : Z) (s : BaseStructure_t) (w : World)
  : pair_t * BaseStructure_t * World :=
  let '(result, w) := execute_pair (prev_cmd s key flags) w in
  (mkPair (rk_key result) (rk_val result) (rk_rslt result),
   mkBase (gsid s) (rk_power result), w).

Definition nsm_cmd (s : BaseStructure_t) (key : key_t) (flags : Z)
  : command :=
  cmd_gsid_key (to_cmd_t (Z.lor NSM flags)) (gsid s) key.

(** [pair_t BaseStructure::nsm(key_t, flags_t)] *)
Definition nsm (key : key_t) (flags : Z) (s : BaseStructure_t) (w : World)
  : pair_t * BaseStructure_t * World :=
  let '(result, w) := execute_pair (nsm_cmd s key flags) w in
  (mkPair (rk_key result) (rk_val result) (rk_rslt result),
   mkBase (gsid s) (rk_power result), w).

Definition ngr_cmd (s : BaseStructure_t) (key : key_t) (flags : Z)
  : command :=
  cmd_gsid_key (to_cmd_t (Z.lor NGR flags)) (gsid s) key.

(** [pair_t BaseStructure::ngr(key_t, flags_t)] *)
Definition ngr (key : key_t) (flags : Z) (s : BaseStructure_t) (w : World)
  : pair_t * BaseStructure_t * World :=
  let '(result, w) := execute_pair (ngr_cmd s key flags) w in
  (mkPair (rk_key result) (rk_val result) (rk_rslt result),
   mkBase (gsid s) (rk_power result), w).

(** *** Sequential single inserts

    [insert_each] runs a single insert for every entry of the list, in list
    order, whatever the statuses; it is the yardstick for [insert_vector]. *)
Fixpoint insert_each (l : list InsertStruct) (flags : Z)
         (s : BaseStructure_t) (w : World)
  : list status_t * BaseStructure_t * World :=
  match l with
  | [] => ([], s, w)
  | ex :: rest =>
      let '(status, s, w) := insert (is_key ex) (is_value ex) flags s w in
      let '(statuses, s, w) := insert_each rest flags s w in
      (status :: statuses, s, w)
  end.

(** *** Properties of the facade *)

Lemma insert_vector_all_ok l :
  forall flags s w,
    Forall (fun st => st = OK) (fst (fst (insert_each l flags s w))) ->
    insert_vector l flags s w =
      (OK, snd (fst (insert_each l flags s w)), snd (insert_each l flags s w)).
Proof.
  induction l as [|ex l IH]; intros flags s w Hok; simpl in *.
  - reflexivity.
  - destruct (insert (is_key ex) (is_value ex) flags s w)
      as [[status s1] w1] eqn:Hins.
    specialize (IH flags s1 w1).
    destruct (insert_each l flags s1 w1) as [[statuses s2] w2] eqn:Heach.
    simpl in *. inversion Hok as [|? ? Hst Hrest]; subst.
    destruct (decide (OK <> OK)) as [Hne|_]; [contradiction |].
    apply IH, Hrest.
Qed.

Lemma insert_vector_first_failure l1 :
  forall ex l2 flags s w,
    Forall (fun st => st = OK) (fst (fst (insert_each l1 flags s w))) ->
    fst (fst (insert (is_key ex) (is_value ex) flags
                (snd (fst (insert_each l1 flags s w)))
                (snd (insert_each l1 flags s w)))) <> OK ->
    insert_vector (l1 ++ ex :: l2) flags s w =
      insert (is_key ex) (is_value ex) flags
        (snd (fst (insert_each l1 flags s w)))
        (snd (insert_each l1 flags s w)).
Proof.
  induction l1 as [|e l1 IH]; intros ex l2 flags s w Hok Hfail; simpl in *.
  - destruct (insert (is_key ex) (is_value ex) flags s w)
      as [[status s1] w1] eqn:Hins. simpl in *.
    destruct (decide (status <> OK)) as [_|Hno]; [reflexivity |].
    contradiction.
  - destruct (insert (is_key e) (is_value e) flags s w)
      as [[status s1] w1] eqn:Hins.
    specialize (IH ex l2 flags s1 w1).
    destruct (insert_each l1 flags s1 w1) as [[statuses s2] w2] eqn:Heach.
    simpl in *. inversion Hok as [|? ? Hst Hrest]; subst.
    destruct (decide (OK <> OK)) as [Hne|_]; [contradiction |].
    apply IH; assumption.
Qed.

(** C5.  The batched insert runs the single inserts in list order.  When
    every one of them returns [OK] (the empty list included) it returns [OK]
    after the last; when the insert of an entry [ex] is the first to return
    another status, the call ends there: it returns that status, and the
    structure and the device are as that insert left them, with the inserts
    before it applied and none of the entries after it touched. *)
Theorem insert_vector_sequential :
  (forall l flags s w,
      Forall (fun st => st = OK) (fst (fst (insert_each l flags s w))) ->
      insert_vector l flags s w =
        (OK, snd (fst (insert_each l flags s w)),
             snd (insert_each l flags s w)))
  /\ (forall l1 ex l2 flags s w,
         Forall (fun st => st = OK) (fst (fst (insert_each l1 flags s w))) ->
         fst (fst (insert (is_key ex) (is_value ex) flags
                     (snd (fst (insert_each l1 flags s w)))
                     (snd (insert_each l1 flags s w)))) <> OK ->
         insert_vector (l1 ++ ex :: l2) flags s w =
           insert (is_key ex) (is_value ex) flags
             (snd (fst (insert_each l1 flags s w)))
             (snd (insert_each l1 flags s w))).
Proof.
  split.
  - intros l. apply insert_vector_all_ok.
  - intros l1. apply insert_vector_first_failure.
Qed.

(** C8.  The constructor leaves the cached power at 0, and after each of
    insert, delete, search, min, max, next, prev, nsm, ngr and the
    destructor, [get_power] is the power field of the result that the
    operation's command brought back. *)
Theorem get_power_is_last_result_power :
  (forall w s w', BaseStructure w = (inr s, w') -> get_power s = 0)
  /\ (forall key value flags s w,
         get_power (snd (fst (insert key value flags s w))) =
         rp_power (fst (execute_power (ins_cmd s key value flags) w)))
  /\ (forall key flags s w,
         get_power (snd (fst (del key flags s w))) =
         rp_power (fst (execute_power (del_cmd s key flags) w)))
  /\ (forall key flags s w,
         get_power (snd (fst (search key flags s w))) =
         rk_power (fst (execute_pair (srch_cmd s key flags) w)))
  /\ (forall flags s w,
         get_power (snd (fst (min flags s w))) =
         rk_power (fst (execute_pair (min_cmd s flags) w)))
  /\ (forall flags s w,
         get_power (snd (fst (max flags s w))) =
         rk_power (fst (execute_pair (max_cmd s flags) w)))
  /\ (forall key flags s w,
         get_power (snd (fst (next key flags s w))) =
         rk_power (fst (execute_pair (next_cmd s key flags) w)))
  /\ (forall key flags s w,
         get_power (snd (fst (prev key flags s w))) =
         rk_power (fst (execute_pair (prev_cmd s key flags) w)))
  /\ (forall key flags s w,
         get_power (snd (fst (nsm key flags s w))) =
         rk_power (fst (execute_pair (nsm_cmd s key flags) w)))
  /\ (forall key flags s w,
         get_power (snd (fst (ngr key flags s w))) =
         rk_power (fst (execute_pair (ngr_cmd s key flags) w)))
  /\ (forall s w,
         get_power (fst (destroy s w)) =
         rp_power (fst (execute_power (dels_cmd s) w))).
Proof.
  repeat split.
  - intros w s w' Hnew. unfold BaseStructure in Hnew.
    destruct (execute_gsid _ w) as [result w1].
    destruct (decide (rg_rslt result = OK)); [| discriminate].
    injection Hnew as <- _. reflexivity.
  - intros key value flags s w. unfold insert.
    destruct (execute_power _ w) as [result w1]. reflexivity.
  - intros key flags s w. unfold del.
    destruct (execute_power _ w) as [result w1]. reflexivity.
  - intros key flags s w. unfold search.
    destruct (execute_pair _ w) as [result w1]. reflexivity.
  - intros flags s w. unfold min.
    destruct (execute_pair _ w) as [result w1]. reflexivity.
  - intros flags s w. unfold max.
    destruct (execute_pair _ w) as [result w1]. reflexivity.
  - intros key flags s w. unfold next.
    destruct (execute_pair _ w) as [result w1]. reflexivity.
  - intros key flags s w. unfold prev.
    destruct (execute_pair _ w) as [result w1]. reflexivity.
  - intros key flags s w. unfold nsm.
    destruct (execute_pair _ w) as [result w1]. reflexivity.
  - intros key flags s w. unfold ngr.
    destruct (execute_pair _ w) as [result w1]. reflexivity.
  - intros s w. unfold destroy.
    destruct (execute_power _ w) as [result w1]. reflexivity.
Qed.


(** *** The identifier and the composition of batches *)

Lemma insert_keeps_gsid key value flags s w :
  gsid (snd (fst (insert key value flags s w))) = gsid s.
Proof.
  unfold insert. destruct (execute_power _ w) as [result w1]. reflexivity.
Qed.

Lemma insert_vector_keeps_gsid l :
  forall flags s w, gsid (snd (fst (insert_vector l flags s w))) = gsid s.
Proof.
  induction l as [|ex l IH]; intros flags s w; simpl; [reflexivity |].
  pose proof (insert_keeps_gsid (is_key ex) (is_value ex) flags s w) as Hins.
  destruct (insert (is_key ex) (is_value ex) flags s w) as [[status s1] w1].
  simpl in Hins. destruct (decide (status <> OK)); simpl.
  - exact Hins.
  - rewrite IH. exact Hins.
Qed.

(** X15.  No operation changes the identifier that the constructor stored:
    after insert, batched insert, delete, the seven queries and the
    destructor the object still names the same structure, so every command
    it issues carries that identifier. *)
Theorem operations_keep_gsid s w flags :
  (forall key value, gsid (snd (fst (insert key value flags s w))) = gsid s)
  /\ (forall l, gsid (snd (fst (insert_vector l flags s w))) = gsid s)
  /\ (forall key, gsid (snd (fst (del key flags s w))) = gsid s)
  /\ (forall key, gsid (snd (fst (search key flags s w))) = gsid s)
  /\ gsid (snd (fst (min flags s w))) = gsid s
  /\ gsid (snd (fst (max flags s w))) = gsid s
  /\ (forall key, gsid (snd (fst (next key flags s w))) = gsid s)
  /\ (forall key, gsid (snd (fst (prev key flags s w))) = gsid s)
  /\ (forall key, gsid (snd (fst (nsm key flags s w))) = gsid s)
  /\ (forall key, gsid (snd (fst (ngr key flags s w))) = gsid s)
  /\ gsid (fst (destroy s w)) = gsid s.
Proof.
  repeat split; intros.
  - apply insert_keeps_gsid.
  - apply insert_vector_keeps_gsid.
  - unfold del. destruct (execute_power _ w). reflexivity.
  - unfold search. destruct (execute_pair _ w). reflexivity.
  - unfold min. destruct (execute_pair _ w). reflexivity.
  - unfold max. destruct (execute_pair _ w). reflexivity.
  - unfold next. destruct (execute_pair _ w). reflexivity.
  - unfold prev. destruct (execute_pair _ w). reflexivity.
  - unfold nsm. destruct (execute_pair _ w). reflexivity.
  - unfold ngr. destruct (execute_pair _ w). reflexivity.
  - unfold destroy. destruct (execute_power _ w). reflexivity.
Qed.

(** X16.  A batch split in two: inserting [l1 ++ l2] is inserting [l1] and,
    if that returned [OK], inserting [l2] from where it left off; if [l1]
    returned another status, that is the result and [l2] is not touched. *)
Theorem insert_vector_app l1 :
  forall l2 flags s w,
    insert_vector (l1 ++ l2) flags s w =
      let '(status, s1, w1) := insert_vector l1 flags s w in
      if decide (status <> OK) then (status, s1, w1)
      else insert_vector l2 flags s1 w1.
Proof.
  induction l1 as [|ex l1 IH]; intros l2 flags s w; simpl.
  - destruct (decide (OK <> OK)); [contradiction | reflexivity].
  - destruct (insert (is_key ex) (is_value ex) flags s w) as [[status s1] w1].
    destruct (decide (status <> OK)) as [Hne|Hok].
    + destruct (decide (status <> OK)); [reflexivity | contradiction].
    + apply IH.
Qed.


End BaseStructure.
End Facade.

(** ** The facade over a small backend *)

Module FacadeInstance.
Import Facade.

(** A backend for evaluating the facade: the device is the list of the
    pairs inserted so far, its power is the length of that list, and an
    insert with key 3 is refused with [ERR]. *)
Definition World : Type := list (Z * Z).

Definition device_power (w : World) : Z := Z.of_nat (length w).

Definition execute_gsid (c : command Z Z Z) (w : World)
  : rslt_gsid Z * World :=
  (mkRsltGsid Z OK 1, w).

Definition execute_power (c : command Z Z Z) (w : World)
  : rslt_power * World :=
  match c with
  | cmd_gsid_key_val _ _ _ _ _ key val =>
      if key =? 3 then (mkRsltPower ERR (device_power w), w)
      else (mkRsltPower OK (device_power ((key, val) :: w)), (key, val) :: w)
  | _ => (mkRsltPower OK (device_power w), w)
  end.

Definition execute_pair (c : command Z Z Z) (w : World)
  : rslt_pair Z Z * World :=
  match c with
  | cmd_gsid_key _ _ _ _ _ key =>
      match find (fun kv => fst kv =? key) w with
      | Some (k, v) => (mkRsltPair Z Z OK k v (device_power w), w)
      | None => (mkRsltPair Z Z ERR 0 0 (device_power w), w)
      end
  | _ => (mkRsltPair Z Z ERR 0 0 (device_power w), w)
  end.

Definition INS : Z := 0x03.

Definition insert_vector :=
  Facade.insert_vector Z Z Z INS World execute_power.

Definition s0 : BaseStructure_t Z := mkBase Z 1 0.
Definition e1 := mkInsert Z Z 1 10.
Definition e2 := mkInsert Z Z 2 20.
Definition e3 := mkInsert Z Z 3 30.
Definition e4 := mkInsert Z Z 4 40.

Lemma insert_vector_sequential_witness :
  insert_vector [e1; e2] 0 s0 [] = (OK, mkBase Z 1 2, [(2, 20); (1, 10)])
  /\ insert_vector ([e1; e2] ++ e3 :: [e4]) 0 s0 []
       = (ERR, mkBase Z 1 2, [(2, 20); (1, 10)]).
Proof.
  destruct (insert_vector_sequential Z Z Z INS World execute_power)
    as [Hall Hfail].
  unfold insert_vector. split.
  - rewrite Hall; [reflexivity |]. repeat constructor.
  - rewrite Hfail; [reflexivity | repeat constructor |].
    vm_compute. discriminate.
Defined.

Lemma get_power_is_last_result_power_witness :
  exists s,
    BaseStructure Z Z Z 0x01 0x80 World execute_gsid [] = (inr s, [])
    /\ get_power Z s = 0.
Proof.
  exists (mkBase Z 1 0). split; [reflexivity |].
  destruct (get_power_is_last_result_power Z Z Z 0x01 0x02 INS 0x04 0x05
              0x06 0x07 0x08 0x09 0x0A 0x0B 0x80 World execute_gsid
              execute_power execute_pair) as [Hnew _].
  apply (Hnew [] (mkBase Z 1 0) []). reflexivity.
Defined.

End FacadeInstance.

(** ** [simulator/Simulator.cpp] *)

Module Sim.
Section Simulator.

(** [key_t] and [value_t] come from [libspu.hpp]; the map compares keys, so
    equality on them is decidable.  Identifiers are numbers
    ([getNextGsid] counts them up). *)
Context {key_t : Type} `{Countable key_t} {value_t : Type}.

(** The address of a [map<key_t, value_t>] made by [new]. *)
Definition loc := nat.

(** The process-wide state: the maps on the heap, the table
    [globalStructures] from identifiers to map addresses, and the static
    counter of [getNextGsid]. *)
Record sim_state := mkSim {
  heap : gmap loc (gmap key_t value_t);
  globalStructures : gmap Z loc;
  next_gsid : Z
}.

(** A [Simulator] object: the identifier it got from its base class and the
    pointer [_data].  Objects with the same identifier share the map. *)
Record Simulator_t := mkSimulator {
  get_gsid : Z;
  _data : loc
}.

(** [*_data] *)
Definition deref (s : Simulator_t) (w : sim_state) : gmap key_t value_t :=
  default ∅ (heap w !! _data s).

(** [*_data = m] *)
Definition store (s : Simulator_t) (m : gmap key_t value_t) (w : sim_state)
  : sim_state :=
  mkSim (<[_data s := m]> (heap w)) (globalStructures w) (next_gsid w).

(** [Simulator::Simulator()], after the base class has set the identifier:
    attach to the map registered under it, or make and register a new one. *)
Definition Simulator (gsid : Z) (w : sim_state) : Simulator_t * sim_state :=
  match globalStructures w !! gsid with
  | Some l => (mkSimulator gsid l, w)
  | None =>
      let l := fresh (dom (heap w)) in
      (mkSimulator gsid l,
       mkSim (<[l := ∅]> (heap w)) (<[gsid := l]> (globalStructures w))
             (next_gsid w))
  end.

(** [gsid_t getNextGsid()] *)
Definition getNextGsid (w : sim_state) : Z * sim_state :=
  let gsid := next_gsid w + 1 in
  (gsid, mkSim (heap w) (globalStructures w) gsid).

(** [adds_rslt_t]: status and identifier. *)
Record adds_rslt_t := mkAddsRslt {
  adds_rslt : status_t;
  adds_gsid : Z
}.

(** [dels_rslt_t]: status and power. *)
Record dels_rslt_t := mkDelsRslt {
  dels_rslt : status_t;
  dels_power : Z
}.

(** [adds_rslt_t Simulator::createStructure()] *)
Definition createStructure (w : sim_state) : adds_rslt_t * sim_state :=
  let '(gsid, w) := getNextGsid w in
  (mkAddsRslt OK gsid, w).

(** [dels_rslt_t Simulator::deleteStructure()] *)
Definition deleteStructure (s : Simulator_t) (w : sim_state)
  : dels_rslt_t * sim_state :=
  (mkDelsRslt OK 0,
   mkSim (heap w) (delete (get_gsid s) (globalStructures w)) (next_gsid w)).

(** [u32 Simulator::get_power()] *)
Definition get_power (s : Simulator_t) (w : sim_state) : Z :=
  wrap32 (Z.of_nat (size (deref s w))).

(** [status_t Simulator::insert(key_t, value_t, flags_t)] *)
Definition insert (key : key_t) (value : value_t) (flags : Z)
           (s : Simulator_t) (w : sim_state) : status_t * sim_state :=
  (OK, store s (<[key := value]> (deref s w)) w).

(** [status_t Simulator::del(key_t, flags_t)] *)
Definition del (key : key_t) (flags : Z) (s : Simulator_t) (w : sim_state)
  : status_t * sim_state :=
  (OK, store s (delete key (deref s w)) w).

(** Modelled from the spec: [pair_t] is declared in [libspu.hpp], which is
    not among the sources.  "Pair: (key, value, status)"; the two-argument
    form [{key, value}] carries the status [OK] ("after insert(k, v),
    search(k) returns {k, v, Ok}"), and [pair_t(ERR)] carries [ERR] with a
    sentinel key and value that callers must not read. *)
Record pair_t := mkPair {
  p_key : key_t;
  p_value : value_t;
  p_status : status_t
}.

Variable sentinel_key : key_t.
Variable sentinel_value : value_t.

Definition pair_of (key : key_t) (value : value_t) : pair_t :=
  mkPair key value OK.

Definition pair_err (status : status_t) : pair_t :=
  mkPair sentinel_key sentinel_value status.

(** [pair_t Simulator::search(key_t, flags_t)] *)
Definition search (key : key_t) (flags : Z) (s : Simulator_t) (w : sim_state)
  : pair_t :=
  match deref s w !! key with
  | Some value => pair_of key value
  | None => pair_err ERR
  end.

(** *** Properties of the simulator *)

Lemma deref_store s m w : deref s (store s m w) = m.
Proof. unfold deref, store. simpl. rewrite lookup_insert_eq. reflexivity. Qed.

Lemma store_store s m1 m2 w : store s m2 (store s m1 w) = store s m2 w.
Proof. unfold store. simpl. rewrite insert_insert_eq. reflexivity. Qed.

(** C6.  A search for [k] right after [insert(k, v)] returns the pair
    [{k, v}] with status [OK]; a search for [k] right after [del(k)] returns
    the sentinel pair with status [ERR]. *)
Theorem search_after_insert_and_del :
  (forall k v flags flags' s w,
      search k flags' s (snd (insert k v flags s w)) = mkPair k v OK)
  /\ (forall k flags flags' s w,
         search k flags' s (snd (del k flags s w)) = pair_err ERR
         /\ p_status (search k flags' s (snd (del k flags s w))) = ERR).
Proof.
  split.
  - intros k v flags flags' s w. unfold search, insert. simpl.
    rewrite deref_store, lookup_insert_eq. reflexivity.
  - intros k flags flags' s w. unfold search, del. simpl.
    rewrite deref_store, lookup_delete_eq. split; reflexivity.
Qed.

(** C7 (as amended).  [deleteStructure] removes the identifier's entry from
    [globalStructures] and returns status [OK] with power 0, whatever number
    of elements the structure holds; the map itself stays as it is. *)
Theorem deleteStructure_reports_zero s w :
  globalStructures (snd (deleteStructure s w)) !! get_gsid s = None
  /\ fst (deleteStructure s w) = mkDelsRslt OK 0
  /\ deref s (snd (deleteStructure s w)) = deref s w.
Proof.
  unfold deleteStructure. simpl. split; [| split].
  - apply lookup_delete_eq.
  - reflexivity.
  - reflexivity.
Qed.

(** C10.  [insert] returns [OK] for every key, value and flags; on a key
    that is present it replaces the value and leaves the power as it was;
    and inserting the same pair a second time leaves the state as the first
    insert made it. *)
Theorem insert_overwrites :
  (forall k v flags s w, fst (insert k v flags s w) = OK)
  /\ (forall k v flags s w,
         is_Some (deref s w !! k) ->
         deref s (snd (insert k v flags s w)) !! k = Some v
         /\ get_power s (snd (insert k v flags s w)) = get_power s w)
  /\ (forall k v flags flags' s w,
         snd (insert k v flags' s (snd (insert k v flags s w))) =
         snd (insert k v flags s w)).
Proof.
  split; [| split].
  - reflexivity.
  - intros k v flags s w [v0 Hk]. unfold insert, get_power. simpl.
    rewrite deref_store. split.
    + apply lookup_insert_eq.
    + rewrite map_size_insert_Some by (exists v0; exact Hk). reflexivity.
  - intros k v flags flags' s w. unfold insert. simpl.
    rewrite deref_store, store_store, insert_insert_eq. reflexivity.
Qed.

(** *** Other keys, the power, and objects that share a map *)

Lemma deref_store_other s s' m w :
  _data s <> _data s' -> deref s (store s' m w) = deref s w.
Proof.
  intros Hne. unfold deref, store. simpl.
  rewrite lookup_insert_ne by congruence. reflexivity.
Qed.

(** X17.  [insert] and [del] on one key leave the result of a search for
    any other key as it was. *)
Theorem search_other_key k k' v flags flags' s w :
  k <> k' ->
  search k' flags' s (snd (insert k v flags s w)) = search k' flags' s w
  /\ search k' flags' s (snd (del k flags s w)) = search k' flags' s w.
Proof.
  intros Hne. unfold search, insert, del. simpl. rewrite !deref_store.
  rewrite lookup_insert_ne, lookup_delete_ne by exact Hne.
  split; reflexivity.
Qed.

(** X18.  While the element count fits 32 bits: inserting an absent key
    raises the power by one, deleting a present key lowers it by one, and
    deleting an absent key changes neither the map nor the power. *)
Theorem power_counts_keys k v flags s w :
  Z.of_nat (size (deref s w)) < 2 ^ 32 - 1 ->
  (deref s w !! k = None ->
   get_power s (snd (insert k v flags s w)) = get_power s w + 1)
  /\ (is_Some (deref s w !! k) ->
      get_power s (snd (del k flags s w)) = get_power s w - 1)
  /\ (deref s w !! k = None ->
      deref s (snd (del k flags s w)) = deref s w
      /\ get_power s (snd (del k flags s w)) = get_power s w).
Proof.
  intros Hfit. unfold get_power, insert, del. simpl. rewrite !deref_store.
  split; [| split].
  - intros Hk. rewrite map_size_insert_None by exact Hk.
    unfold wrap32. rewrite !Z.mod_small by lia. lia.
  - intros [v0 Hk].
    rewrite map_size_delete_Some by (exists v0; exact Hk).
    assert (Hpos : size (deref s w) <> 0%nat).
    { apply map_size_non_empty_iff. intros Hempty.
      rewrite Hempty, lookup_empty in Hk. discriminate. }
    unfold wrap32. rewrite !Z.mod_small by lia. lia.
  - intros Hk. rewrite delete_id by exact Hk. split; reflexivity.
Qed.

(** A state in which every registered identifier points to a map on the
    heap, and no two identifiers point to the same map. *)
Definition sim_wf (w : sim_state) : Prop :=
  (forall g l, globalStructures w !! g = Some l -> is_Some (heap w !! l))
  /\ (forall g1 g2 l,
         globalStructures w !! g1 = Some l ->
         globalStructures w !! g2 = Some l -> g1 = g2).

Lemma fresh_loc_not_in_heap (w : sim_state) :
  heap w !! fresh (dom (heap w)) = None.
Proof. apply not_elem_of_dom, is_fresh. Qed.

Lemma Simulator_registered g w :
  globalStructures (snd (Simulator g w)) !! g
    = Some (_data (fst (Simulator g w)))
  /\ get_gsid (fst (Simulator g w)) = g.
Proof.
  unfold Simulator. destruct (globalStructures w !! g) as [l|] eqn:Hg; simpl.
  - split; [exact Hg | reflexivity].
  - split; [apply lookup_insert_eq | reflexivity].
Qed.

Lemma Simulator_wf g w : sim_wf w -> sim_wf (snd (Simulator g w)).
Proof.
  intros [Hrange Hinj]. unfold Simulator.
  destruct (globalStructures w !! g) as [l|] eqn:Hg; simpl.
  - split; assumption.
  - pose proof (fresh_loc_not_in_heap w) as Hfresh.
    set (lf := fresh (dom (heap w))) in *.
    assert (Hold : forall g' l', globalStructures w !! g' = Some l' ->
                                 l' <> lf).
    { intros g' l' Hg' ->. apply Hrange in Hg' as [m Hm]. congruence. }
    split; simpl.
    + intros g' l' Hl'. destruct (decide (g = g')) as [<-|Hne].
      * rewrite lookup_insert_eq in Hl'. injection Hl' as <-.
        rewrite lookup_insert_eq. eauto.
      * rewrite lookup_insert_ne in Hl' by exact Hne.
        rewrite lookup_insert_ne by (symmetry; eapply Hold; eassumption).
        eapply Hrange, Hl'.
    + intros g1 g2 l' H1 H2.
      destruct (decide (g = g1)) as [<-|Hne1];
        destruct (decide (g = g2)) as [<-|Hne2]; try reflexivity.
      * rewrite lookup_insert_eq in H1. injection H1 as <-.
        rewrite lookup_insert_ne in H2 by exact Hne2.
        exfalso. eapply Hold; [exact H2 | reflexivity].
      * rewrite lookup_insert_eq in H2. injection H2 as <-.
        rewrite lookup_insert_ne in H1 by exact Hne1.
        exfalso. eapply Hold; [exact H1 | reflexivity].
      * rewrite lookup_insert_ne in H1, H2 by assumption.
        eapply Hinj; eassumption.
Qed.

Lemma store_wf s m w : sim_wf w -> sim_wf (store s m w).
Proof.
  intros [Hrange Hinj]. unfold store. split; simpl.
  - intros g l Hl. destruct (decide (_data s = l)) as [<-|Hne].
    + rewrite lookup_insert_eq. eauto.
    + rewrite lookup_insert_ne by exact Hne. eapply Hrange, Hl.
  - exact Hinj.
Qed.

(** X19.  The empty state is well formed, and every operation of the
    simulator keeps a state well formed: registered identifiers always
    point to maps on the heap, and to different ones. *)
Theorem sim_wf_invariant :
  sim_wf (mkSim ∅ ∅ 0)
  /\ forall w,
       sim_wf w ->
       (forall g, sim_wf (snd (Simulator g w)))
       /\ sim_wf (snd (createStructure w))
       /\ (forall s, sim_wf (snd (deleteStructure s w)))
       /\ (forall k v flags s, sim_wf (snd (insert k v flags s w)))
       /\ (forall k flags s, sim_wf (snd (del k flags s w))).
Proof.
  split.
  - split; simpl; intros *; rewrite lookup_empty; discriminate.
  - intros w Hwf. split; [| split; [| split; [| split]]].
    + intros g. apply Simulator_wf, Hwf.
    + destruct Hwf as [Hrange Hinj]. split; simpl; assumption.
    + intros s. destruct Hwf as [Hrange Hinj]. split; simpl.
      * intros g l Hl. apply lookup_delete_Some in Hl as [_ Hl].
        eapply Hrange, Hl.
      * intros g1 g2 l H1 H2.
        apply lookup_delete_Some in H1 as [_ H1].
        apply lookup_delete_Some in H2 as [_ H2].
        eapply Hinj; eassumption.
    + intros k v flags s. apply store_wf, Hwf.
    + intros k flags s. apply store_wf, Hwf.
Qed.

(** X20.  A second object constructed with the same identifier attaches to
    the same map and changes nothing; what is inserted through one object
    is found through the other. *)
Theorem Simulator_reattach g w k v flags flags' :
  let s1 := fst (Simulator g w) in
  let w1 := snd (Simulator g w) in
  let s2 := fst (Simulator g w1) in
  Simulator g w1 = (s1, w1)
  /\ search k flags' s2 (snd (insert k v flags s1 w1)) = mkPair k v OK.
Proof.
  intros s1 w1 s2.
  assert (Hagain : Simulator g w1 = (s1, w1)).
  { destruct (Simulator_registered g w) as [Hreg _].
    fold w1 s1 in Hreg. unfold Simulator at 1. rewrite Hreg.
    f_equal. unfold s1, Simulator.
    destruct (globalStructures w !! g); reflexivity. }
  split; [exact Hagain |].
  unfold s2. rewrite Hagain. simpl.
  unfold search, insert. simpl. rewrite deref_store, lookup_insert_eq.
  reflexivity.
Qed.

(** X21.  In a well-formed state, objects constructed with different
    identifiers have different maps: an insert or a delete through one
    leaves every search through the other, and the other's power, as they
    were. *)
Theorem Simulator_isolation g1 g2 w k k' v flags flags' :
  sim_wf w ->
  g1 <> g2 ->
  let s1 := fst (Simulator g1 w) in
  let w1 := snd (Simulator g1 w) in
  let s2 := fst (Simulator g2 w1) in
  let w2 := snd (Simulator g2 w1) in
  _data s1 <> _data s2
  /\ search k' flags' s1 (snd (insert k v flags s2 w2)) = search k' flags' s1 w2
  /\ search k' flags' s1 (snd (del k flags s2 w2)) = search k' flags' s1 w2
  /\ get_power s1 (snd (insert k v flags s2 w2)) = get_power s1 w2.
Proof.
  intros Hwf Hne s1 w1 s2 w2.
  pose proof (Simulator_wf g1 w Hwf) as Hwf1. fold w1 in Hwf1.
  destruct (Simulator_registered g1 w) as [Hreg1 _]. fold w1 s1 in Hreg1.
  assert (Hdata : _data s1 <> _data s2).
  { unfold s2, Simulator.
    destruct (globalStructures w1 !! g2) as [l2|] eqn:Hg2; simpl.
    - intros Heq. apply Hne. destruct Hwf1 as [_ Hinj].
      apply (Hinj g1 g2 l2); [rewrite Hreg1; f_equal; exact Heq | exact Hg2].
    - intros Heq. destruct Hwf1 as [Hrange _].
      destruct (Hrange g1 _ Hreg1) as [m Hm].
      rewrite Heq, fresh_loc_not_in_heap in Hm. discriminate. }
  split; [exact Hdata |].
  unfold search, get_power, insert, del. simpl.
  rewrite !deref_store_other by exact Hdata. repeat split; reflexivity.
Qed.

(** X22.  Destroying a structure and constructing an object with the same
    identifier again gives an empty structure (power 0), while the map of
    the destroyed one is still on the heap, unchanged, for the object that
    holds its address. *)
Theorem Simulator_after_delete s w :
  is_Some (heap w !! _data s) ->
  let w' := snd (deleteStructure s w) in
  let s' := fst (Simulator (get_gsid s) w') in
  let w'' := snd (Simulator (get_gsid s) w') in
  get_power s' w'' = 0
  /\ _data s' <> _data s
  /\ deref s w'' = deref s w.
Proof.
  intros [m Hm] w' s' w''.
  unfold s', w'', w', Simulator, deleteStructure. simpl.
  rewrite lookup_delete_eq. simpl.
  pose proof (fresh_loc_not_in_heap w) as Hfresh.
  assert (Hne : fresh (dom (heap w)) <> _data s) by congruence.
  split; [| split].
  - unfold get_power, deref. simpl. rewrite lookup_insert_eq. reflexivity.
  - exact Hne.
  - unfold deref. simpl. rewrite lookup_insert_ne by exact Hne. reflexivity.
Qed.

(** [n] calls of [createStructure] in a row: the identifiers they return. *)
Fixpoint create_many (n : nat) (w : sim_state) : list Z * sim_state :=
  match n with
  | O => ([], w)
  | S n' =>
      let '(res, w) := createStructure w in
      let '(rest, w) := create_many n' w in
      (adds_gsid res :: rest, w)
  end.

Lemma create_many_ids n :
  forall w,
    fst (create_many n w) = seqZ (next_gsid w + 1) (Z.of_nat n)
    /\ next_gsid (snd (create_many n w)) = next_gsid w + Z.of_nat n.
Proof.
  induction n as [|n IH]; intros w.
  - simpl. split; [reflexivity | lia].
  - cbn [create_many]. unfold createStructure, getNextGsid.
    cbn [adds_gsid].
    specialize (IH (mkSim (heap w) (globalStructures w) (next_gsid w + 1))).
    destruct (create_many n _) as [rest w2]. simpl in IH. simpl.
    destruct IH as [-> ->]. split; [| lia].
    rewrite (seqZ_cons (next_gsid w + 1) (Z.of_nat (S n))) by lia.
    f_equal. f_equal; lia.
Qed.

(** X23.  [createStructure] always reports [OK], and successive calls hand
    out consecutive identifiers, starting one above the counter: no
    identifier is handed out twice. *)
Theorem createStructure_fresh_ids n w :
  adds_rslt (fst (createStructure w)) = OK
  /\ fst (create_many n w) = seqZ (next_gsid w + 1) (Z.of_nat n)
  /\ NoDup (fst (create_many n w)).
Proof.
  split; [reflexivity |].
  destruct (create_many_ids n w) as [Hids _]. split; [exact Hids |].
  rewrite Hids. apply NoDup_seqZ.
Qed.


End Simulator.
(** *** [min] and [max]

    The two functions walk the map with [std::min_element] and
    [std::max_element], which compare the entries, pairs of key and value,
    with [operator<] of [std::pair].  Keys and values are taken to be
    integers here. *)
Section MinMax.

Variables sentinel_key sentinel_value : Z.

(** [operator<] of [std::pair]: by the first component, then the second. *)
Definition pair_lt (a b : Z * Z) : bool :=
  (fst a <? fst b) || (negb (fst b <? fst a) && (snd a <? snd b)).

(** The order of the map: by key. *)
Definition key_le (a b : Z * Z) : Prop := fst a <= fst b.

#[local] Instance key_le_dec : RelDecision key_le.
Proof. intros a b. unfold key_le. apply _. Defined.

(** The entries of the map from [begin()] to [end()], in key order. *)
Definition in_order (m : gmap Z Z) : list (Z * Z) :=
  merge_sort key_le (map_to_list m).

(** The loop of [std::min_element]: [if (it < smallest) smallest = it;] on the entries pointed to *)
Fixpoint min_scan (smallest : Z * Z) (l : list (Z * Z)) : Z * Z :=
  match l with
  | [] => smallest
  | x :: rest => min_scan (if pair_lt x smallest then x else smallest) rest
  end.

(** [std::min_element(first, last)]; [None] is [last]. *)
Definition min_element (l : list (Z * Z)) : option (Z * Z) :=
  match l with
  | [] => None
  | x :: rest => Some (min_scan x rest)
  end.

(** The loop of [std::max_element]: [if (largest < it) largest = it;] on the entries pointed to *)
Fixpoint max_scan (largest : Z * Z) (l : list (Z * Z)) : Z * Z :=
  match l with
  | [] => largest
  | x :: rest => max_scan (if pair_lt largest x then x else largest) rest
  end.

(** [std::max_element(first, last)]; [None] is [last]. *)
Definition max_element (l : list (Z * Z)) : option (Z * Z) :=
  match l with
  | [] => None
  | x :: rest => Some (max_scan x rest)
  end.

(** [pair_t Simulator::min(flags_t)] *)
Definition min (flags : Z) (s : Simulator_t) (w : sim_state) : pair_t :=
  match min_element (in_order (deref s w)) with
  | Some it => pair_of (fst it) (snd it)
  | None => pair_err sentinel_key sentinel_value ERR
  end.

(** [pair_t Simulator::max(flags_t)] *)
Definition max (flags : Z) (s : Simulator_t) (w : sim_state) : pair_t :=
  match max_element (in_order (deref s w)) with
  | Some it => pair_of (fst it) (snd it)
  | None => pair_err sentinel_key sentinel_value ERR
  end.

Ltac pair_lt_cases :=
  unfold pair_lt in *; simpl in *;
  repeat match goal with
         | H : context [?a <? ?b] |- _ => destruct (Z.ltb_spec a b)
         | |- context [?a <? ?b] => destruct (Z.ltb_spec a b)
         end;
  simpl in *; try discriminate; try reflexivity; try lia.

Lemma pair_lt_irrefl a : pair_lt a a = false.
Proof. destruct a. pair_lt_cases. Qed.

Lemma pair_lt_trans a b c :
  pair_lt a b = true -> pair_lt b c = true -> pair_lt a c = true.
Proof. destruct a, b, c. intros Hab Hbc. pair_lt_cases. Qed.

(** The order is total: what is below [c] is below [b], or [b] is below
    [c]. *)
Lemma pair_lt_cotrans a b c :
  pair_lt a c = true -> pair_lt a b || pair_lt b c = true.
Proof. destruct a, b, c. intros Hac. pair_lt_cases. Qed.

Lemma pair_lt_keys a b :
  pair_lt a b = false -> fst a <= fst b -> fst a = fst b /\ snd b <= snd a.
Proof. destruct a, b. intros Hab Hle. pair_lt_cases. Qed.

Lemma min_scan_least l :
  forall x,
    min_scan x l ∈ x :: l /\
    forall y, y ∈ x :: l -> pair_lt y (min_scan x l) = false.
Proof.
  induction l as [|z l IH]; intros x; cbn [min_scan].
  - split; [left |]. intros y Hy. apply list_elem_of_singleton in Hy as ->.
    apply pair_lt_irrefl.
  - destruct (IH (if pair_lt z x then z else x)) as [Hin Hleast].
    set (r := min_scan (if pair_lt z x then z else x) l) in *.
    assert (Hx : pair_lt x r = false /\ pair_lt z r = false).
    { destruct (pair_lt z x) eqn:Hzx.
      - pose proof (Hleast z ltac:(left)) as Hz. split; [| exact Hz].
        destruct (pair_lt x r) eqn:Hxr; [| reflexivity].
        rewrite (pair_lt_trans z x r Hzx Hxr) in Hz. discriminate.
      - pose proof (Hleast x ltac:(left)) as Hxr. split; [exact Hxr |].
        destruct (pair_lt z r) eqn:Hzr; [| reflexivity].
        apply (pair_lt_cotrans z x r) in Hzr.
        rewrite Hzx, Hxr in Hzr. discriminate. }
    split.
    + apply elem_of_cons in Hin as [Hin|Hin].
      * rewrite Hin. destruct (pair_lt z x); [right; left | left].
      * right. right. exact Hin.
    + intros y Hy. apply elem_of_cons in Hy as [->|Hy]; [apply Hx |].
      apply elem_of_cons in Hy as [->|Hy]; [apply Hx |].
      apply Hleast. right. exact Hy.
Qed.

Lemma max_scan_greatest l :
  forall x,
    max_scan x l ∈ x :: l /\
    forall y, y ∈ x :: l -> pair_lt (max_scan x l) y = false.
Proof.
  induction l as [|z l IH]; intros x; cbn [max_scan].
  - split; [left |]. intros y Hy. apply list_elem_of_singleton in Hy as ->.
    apply pair_lt_irrefl.
  - destruct (IH (if pair_lt x z then z else x)) as [Hin Hmost].
    set (r := max_scan (if pair_lt x z then z else x) l) in *.
    assert (Hx : pair_lt r x = false /\ pair_lt r z = false).
    { destruct (pair_lt x z) eqn:Hxz.
      - pose proof (Hmost z ltac:(left)) as Hz. split; [| exact Hz].
        destruct (pair_lt r x) eqn:Hrx; [| reflexivity].
        rewrite (pair_lt_trans r x z Hrx Hxz) in Hz. discriminate.
      - pose proof (Hmost x ltac:(left)) as Hrx. split; [exact Hrx |].
        destruct (pair_lt r z) eqn:Hrz; [| reflexivity].
        apply (pair_lt_cotrans r x z) in Hrz.
        rewrite Hrx, Hxz in Hrz. discriminate. }
    split.
    + apply elem_of_cons in Hin as [Hin|Hin].
      * rewrite Hin. destruct (pair_lt x z); [right; left | left].
      * right. right. exact Hin.
    + intros y Hy. apply elem_of_cons in Hy as [->|Hy]; [apply Hx |].
      apply elem_of_cons in Hy as [->|Hy]; [apply Hx |].
      apply Hmost. right. exact Hy.
Qed.

Lemma elem_of_in_order (m : gmap Z Z) k v :
  (k, v) ∈ in_order m <-> m !! k = Some v.
Proof.
  unfold in_order. rewrite merge_sort_Permutation.
  apply elem_of_map_to_list.
Qed.

Lemma in_order_empty (m : gmap Z Z) : m = ∅ -> in_order m = [].
Proof.
  intros ->. unfold in_order. apply Permutation_nil_r.
  rewrite merge_sort_Permutation, map_to_list_empty. reflexivity.
Qed.

(** X24.  [min] on an empty structure returns the sentinel pair with status
    [ERR]; otherwise it returns, with status [OK], the entry whose key is
    the least key present, together with that key's value. *)
Theorem min_is_least_key flags s w :
  (deref s w = ∅ ->
   min flags s w = pair_err sentinel_key sentinel_value ERR)
  /\ (forall k v,
         deref s w !! k = Some v ->
         (forall k', is_Some (deref s w !! k') -> k <= k') ->
         min flags s w = mkPair k v OK).
Proof.
  unfold min. split.
  - intros Hempty. rewrite in_order_empty by exact Hempty. reflexivity.
  - intros k v Hk Hleast.
    apply elem_of_in_order in Hk as Hin.
    destruct (in_order (deref s w)) as [|x l] eqn:Hl.
    { apply elem_of_nil in Hin. contradiction. }
    cbn [min_element]. destruct (min_scan_least l x) as [Hr Hmin].
    destruct (min_scan x l) as [kr vr] eqn:Hscan.
    rewrite <- Hl in Hr. apply elem_of_in_order in Hr.
    pose proof (Hmin (k, v) Hin) as Hkv.
    apply pair_lt_keys in Hkv as [Hkey _];
      [| apply Hleast; eexists; exact Hr].
    simpl in Hkey. subst kr. unfold pair_of. simpl. congruence.
Qed.

(** X25.  [max] on an empty structure returns the sentinel pair with status
    [ERR]; otherwise it returns, with status [OK], the entry whose key is
    the greatest key present, together with that key's value. *)
Theorem max_is_greatest_key flags s w :
  (deref s w = ∅ ->
   max flags s w = pair_err sentinel_key sentinel_value ERR)
  /\ (forall k v,
         deref s w !! k = Some v ->
         (forall k', is_Some (deref s w !! k') -> k' <= k) ->
         max flags s w = mkPair k v OK).
Proof.
  unfold max. split.
  - intros Hempty. rewrite in_order_empty by exact Hempty. reflexivity.
  - intros k v Hk Hmost.
    apply elem_of_in_order in Hk as Hin.
    destruct (in_order (deref s w)) as [|x l] eqn:Hl.
    { apply elem_of_nil in Hin. contradiction. }
    cbn [max_element]. destruct (max_scan_greatest l x) as [Hr Hmax].
    destruct (max_scan x l) as [kr vr] eqn:Hscan.
    rewrite <- Hl in Hr. apply elem_of_in_order in Hr.
    pose proof (Hmax (k, v) Hin) as Hkv.
    apply pair_lt_keys in Hkv as [Hkey _];
      [| apply Hmost; eexists; exact Hr].
    simpl in Hkey. subst kr. unfold pair_of. simpl. congruence.
Qed.

End MinMax.

End Sim.

(** ** The simulator on a structure with one element *)

Module SimInstance.
Import Sim.

Definition w0 : sim_state (key_t := Z) (value_t := Z) := mkSim ∅ ∅ 0.

(** A structure created under identifier 1, with the pair (5, 50) in it. *)
Definition s1 : Simulator_t := fst (Simulator 1 w0).
Definition w1 : sim_state (key_t := Z) (value_t := Z) :=
  snd (insert 5 50 0 s1 (snd (Simulator 1 w0))).

(** C7, counterexample.  The structure holds one element when it is
    destroyed, and [deleteStructure] reports power 0. *)
Lemma deleteStructure_power_not_size :
  get_power s1 w1 = 1
  /\ dels_power (fst (deleteStructure s1 w1)) <> get_power s1 w1.
Proof.
  split.
  - vm_compute. reflexivity.
  - vm_compute. discriminate.
Qed.

Lemma insert_overwrites_witness :
  is_Some (deref s1 w1 !! 5)
  /\ deref s1 (snd (insert 5 51 0 s1 w1)) !! 5 = Some 51
  /\ get_power s1 (snd (insert 5 51 0 s1 w1)) = get_power s1 w1.
Proof.
  assert (Hin : is_Some (deref s1 w1 !! 5)).
  { exists 50. vm_compute. reflexivity. }
  split; [exact Hin |].
  destruct (insert_overwrites (key_t := Z) (value_t := Z))
    as (_ & Hover & _).
  apply Hover. exact Hin.
Defined.

End SimInstance.

(** ** The simulator on two structures *)

Module SimWitnesses.
Import Sim SimInstance.

(** The structure of identifier 1 with the pairs (5, 50) and (7, 70). *)
Definition w2 : sim_state (key_t := Z) (value_t := Z) :=
  snd (insert 7 70 0 s1 w1).

Lemma deref_s1_w2 : deref s1 w2 = <[7 := 70]> (<[5 := 50]> ∅).
Proof.
  unfold w2, w1, insert. simpl. rewrite !deref_store. reflexivity.
Qed.

Lemma keys_of_w2 k : is_Some (deref s1 w2 !! k) -> k = 5 \/ k = 7.
Proof.
  rewrite deref_s1_w2. intros [v Hv].
  destruct (decide (k = 7)) as [->|H7]; [right; reflexivity |].
  rewrite lookup_insert_ne in Hv by congruence.
  destruct (decide (k = 5)) as [->|H5]; [left; reflexivity |].
  rewrite lookup_insert_ne, lookup_empty in Hv by congruence. discriminate.
Qed.

Lemma sim_wf_w0 : sim_wf w0.
Proof. split; simpl; intros *; rewrite lookup_empty; discriminate. Qed.

Lemma search_other_key_witness :
  5 <> 7
  /\ search 0 0 7 0 s1 (snd (insert 5 51 0 s1 w2)) = search 0 0 7 0 s1 w2.
Proof.
  assert (Hne : (5 : Z) <> 7) by discriminate.
  split; [exact Hne |].
  apply (search_other_key 0 0 5 7 51 0 0 s1 w2 Hne).
Defined.

Lemma power_counts_keys_witness :
  deref s1 w1 !! 7 = None
  /\ get_power s1 (snd (insert 7 70 0 s1 w1)) = get_power s1 w1 + 1.
Proof.
  assert (Hfit : Z.of_nat (size (deref s1 w1)) < 2 ^ 32 - 1)
    by (vm_compute; reflexivity).
  assert (Hnone : deref s1 w1 !! 7 = None) by (vm_compute; reflexivity).
  split; [exact Hnone |].
  destruct (power_counts_keys 7 70 0 s1 w1 Hfit) as [Hins _].
  apply Hins, Hnone.
Defined.

Lemma sim_wf_invariant_witness :
  sim_wf w0 /\ sim_wf (snd (Simulator (key_t := Z) (value_t := Z) 1 w0)).
Proof.
  destruct (sim_wf_invariant (key_t := Z) (value_t := Z)) as [Hinit Hstep].
  split; [exact Hinit |].
  destruct (Hstep w0 Hinit) as [Hnew _]. apply Hnew.
Defined.

Lemma Simulator_isolation_witness :
  let sA := fst (Simulator 1 w0) in
  let wA := snd (Simulator 1 w0) in
  let sB := fst (Simulator 2 wA) in
  let wB := snd (Simulator 2 wA) in
  sim_wf w0 /\ _data sA <> _data sB
  /\ get_power sA (snd (insert 9 90 0 sB wB)) = get_power sA wB.
Proof.
  assert (Hne : (1 : Z) <> 2) by discriminate.
  destruct (Simulator_isolation 0 0 1 2 w0 9 5 90 0 0 sim_wf_w0 Hne)
    as (Hdata & _ & _ & Hpower).
  intros sA wA sB wB. split; [exact sim_wf_w0 |].
  split; [exact Hdata | exact Hpower].
Defined.

Lemma Simulator_after_delete_witness :
  is_Some (heap w2 !! _data s1)
  /\ get_power (fst (Simulator 1 (snd (deleteStructure s1 w2))))
               (snd (Simulator 1 (snd (deleteStructure s1 w2)))) = 0
  /\ deref s1 (snd (Simulator 1 (snd (deleteStructure s1 w2)))) = deref s1 w2.
Proof.
  assert (Hheap : is_Some (heap w2 !! _data s1)).
  { unfold w2, insert, store. simpl. rewrite lookup_insert_eq. eauto. }
  split; [exact Hheap |].
  destruct (Simulator_after_delete s1 w2 Hheap) as (Hpower & _ & Hold).
  split; [exact Hpower | exact Hold].
Defined.

Lemma min_is_least_key_witness :
  deref s1 w2 !! 5 = Some 50
  /\ min 0 0 0 s1 w2 = mkPair 5 50 OK.
Proof.
  assert (Hk : deref s1 w2 !! 5 = Some 50).
  { rewrite deref_s1_w2. rewrite lookup_insert_ne by discriminate.
    apply lookup_insert_eq. }
  split; [exact Hk |].
  destruct (min_is_least_key 0 0 0 s1 w2) as [_ Hmin].
  apply Hmin; [exact Hk |].
  intros k' Hk'. destruct (keys_of_w2 k' Hk') as [-> | ->]; lia.
Defined.

Lemma max_is_greatest_key_witness :
  deref s1 w2 !! 7 = Some 70
  /\ max 0 0 0 s1 w2 = mkPair 7 70 OK.
Proof.
  assert (Hk : deref s1 w2 !! 7 = Some 70).
  { rewrite deref_s1_w2. apply lookup_insert_eq. }
  split; [exact Hk |].
  destruct (max_is_greatest_key 0 0 0 s1 w2) as [_ Hmax].
  apply Hmax; [exact Hk |].
  intros k' Hk'. destruct (keys_of_w2 k' Hk') as [-> | ->]; lia.
Defined.

End SimWitnesses.
